(** * ytm-playlist-importer: a shallow embedding of the import pipeline

    The program reads a CSV export of a playlist, finds or creates a YouTube
    playlist named after the file, resolves every row to a video through a
    Redis-backed cache in front of the YouTube search, and inserts the videos
    that are not yet in the playlist.

    The embedding follows [src/index.ts] (the first program of
    [src/unnamed/part_000]), [src/utils.ts] and [src/types/track-data.ts].
    Asynchronous functions are functions in a monad of state, exceptions and
    a trace of effects, over a [World] that holds the Redis store, the
    YouTube account and the [playlists] directory.  The authorisation
    ([init], [authorize], [getNewToken], [storeToken], [createServer]) is
    outside the embedding: [addPlaylist] is where an authorised run starts,
    and the [auth] handle, which every function only passes on, is left
    out. *)

From Stdlib Require Import NArith Ascii String List Lia.
From stdpp Require Import base option list strings gmap.

Open Scope string_scope.
Open Scope list_scope.

(** ** Data model *)

(** [TrackData] of [src/types/track-data.ts].  Every field but ['Track URI']
    is optional (a CSV row may lack the column); [None] is JavaScript's
    [undefined].  Field names drop the characters Rocq does not allow. *)
Record TrackData := {
  Track_URI : string;
  Track_Name : option string;
  Artist_URIs : option string;
  Artist_Names : option string;
  Album_URI : option string;
  Album_Name : option string;
  Album_Artist_URIs : option string;
  Album_Artist_Names : option string;
  Album_Release_Date : option string;
  Album_Image_URL : option string;
  Disc_Number : option string;
  Track_Number : option string;
  Track_Duration_ms : option string;
  Track_Preview_URL : option string;
  Explicit : option string;
  Popularity : option string;
  ISRC : option string;
  Added_By : option string;
  Added_At : option string;
}.

(** [youtube_v3.Schema$ResourceId]: what a search result points at.  A result
    that is a channel or a playlist has no [videoId]. *)
Record ResourceId := {
  kind : option string;
  videoId : option string;
}.

(** [youtube_v3.Schema$SearchResultSnippet], the part the program reads. *)
Record SearchResultSnippet := {
  title : option string;
}.

(** [youtube_v3.Schema$SearchResult]; [sr_id] is the field [id]. *)
Record SearchResult := {
  sr_id : option ResourceId;
  sr_snippet : option SearchResultSnippet;
}.

(** [youtube_v3.Schema$Playlist] as listed with [part: ['snippet']];
    [pl_id] is the field [id], [pl_title] is [snippet.title]. *)
Record Playlist := {
  pl_id : option string;
  pl_title : string;
}.

(** [youtube_v3.Schema$PlaylistItem]: a video in a playlist. *)
Record PlaylistItem := {
  item_playlistId : string;
  item_videoId : string;
}.

(** The value held by the variable [youtubeTrackData] before it is
    validated: an array of search results, or anything else ([undefined]
    when the response has no [items], [null] or an object read back from the
    cache). *)
Inductive JsItems :=
| NonArray
| ArrayOf (items : list SearchResult).

(** lodash's [isArray]. *)
Definition isArray (v : JsItems) : bool :=
  match v with
  | NonArray => false
  | ArrayOf _ => true
  end.

(** The elements of a value that is an array. *)
Definition elements_of (v : JsItems) : list SearchResult :=
  match v with
  | NonArray => []
  | ArrayOf items => items
  end.

(** A template-literal substitution [${x}] of a possibly absent string. *)
Definition subst (x : option string) : string := default "undefined" x.

(** Truthiness of [string | null]: only [null] and the empty string are
    falsy. *)
Definition truthy (x : option string) : bool :=
  match x with
  | None => false
  | Some s => negb (String.eqb s EmptyString)
  end.

(** ** Requests to the YouTube Data API and their responses *)

Inductive Request :=
| search_list (q : string) (maxResults : nat)
| playlists_list (maxResults : nat) (mine : bool)
| playlists_insert (snippet_title : string)
| playlistItems_list (playlistId videoId : option string) (maxResults : nat)
| playlistItems_insert (playlistId : option string) (resourceId : ResourceId).

Inductive Response :=
| Rejected
| SearchListResponse (items : JsItems)
| PlaylistListResponse (items : list Playlist)
| PlaylistResource (id : string)
| PlaylistItemListResponse (items : list PlaylistItem)
| PlaylistItemResource.

(** ** Errors and completions *)

Inductive JsError :=
| Error (message : string)
| TypeError (message : string)
| SyntaxError (message : string)
| ENOENT (path : string)
| GaxiosError (request : Request).

(** The error of reading a property of [undefined]. *)
Definition reading (property : string) : JsError :=
  TypeError ("Cannot read properties of undefined (reading '" +:+ property +:+ "')").

(** How the evaluation of an awaited call ends. *)
Inductive Completion (A : Type) :=
| Normal (a : A)
| Throw (e : JsError)
| ProcessExit
| AwaitingAnswer.
Arguments Normal {A} a.
Arguments Throw {A} e.
Arguments ProcessExit {A}.
Arguments AwaitingAnswer {A}.

(** ** Effects

    What the program does to its surroundings, with the answer it got.
    [call_addTrack] is not an effect: it marks the entry of [addTrack], so
    that a trace tells which records were attempted. *)

Inductive Event :=
| console_log (message : string)
| console_info (message : string)
| console_error (message : string)
| redis_get (key : string) (reply : option string)
| redis_set (key value : string)
| redis_expire (key : string) (seconds : N)
| youtube (request : Request) (response : Response)
| inquirer_prompt (choices : list string) (answer : string)
| call_addTrack (data : TrackData) (playlistId : option string).

(** ** The world *)

(** A Redis string with its remaining time to live in seconds ([None]: the
    key does not expire). *)
Record CacheEntry := {
  value : string;
  ttl : option N;
}.

(** The YouTube account as the program can observe it.  [catalogue q] is the
    [items] field of the search response for [q], best match first;
    [playlists] are the account's own playlists in listing order, a created
    playlist coming first; [mint] names the next created playlist; [faults]
    are the requests the service rejects. *)
Record YouTube := {
  catalogue : string -> JsItems;
  playlists : list Playlist;
  playlistItems : list PlaylistItem;
  mint : string -> list Playlist -> string;
  faults : Request -> bool;
}.

Record World := {
  redis : gmap string CacheEntry;
  service : YouTube;
  playlists_dir : list (string * list (option TrackData));
}.

Definition set_redis (f : gmap string CacheEntry -> gmap string CacheEntry)
    (w : World) : World :=
  {| redis := f (redis w); service := service w;
     playlists_dir := playlists_dir w |}.

Definition set_service (yt : YouTube) (w : World) : World :=
  {| redis := redis w; service := yt; playlists_dir := playlists_dir w |}.

(** ** The monad of asynchronous functions

    An [async] function takes the world to a [Completion], the world it
    leaves and the events it performed, in order.  A rejected promise and a
    thrown exception are the same completion: every call that matters is
    awaited where it is made. *)

Record Result (A : Type) := {
  completion : Completion A;
  world : World;
  events : list Event;
}.
Arguments completion {A} r.
Arguments world {A} r.
Arguments events {A} r.

Definition M (A : Type) : Type := World -> Result A.

#[export] Instance M_ret : MRet M := fun A a w =>
  {| completion := Normal a; world := w; events := [] |}.

(** The events [evs] happened before the run [r]. *)
Definition prepend {A} (evs : list Event) (r : Result A) : Result A :=
  {| completion := completion r; world := world r;
     events := evs ++ events r |}.

#[export] Instance M_bind : MBind M := fun A B k m w =>
  let r := m w in
  match completion r with
  | Normal a => prepend (events r) (k a (world r))
  | Throw e =>
      {| completion := Throw e; world := world r; events := events r |}
  | ProcessExit =>
      {| completion := ProcessExit; world := world r; events := events r |}
  | AwaitingAnswer =>
      {| completion := AwaitingAnswer; world := world r; events := events r |}
  end.

Definition throw {A} (e : JsError) : M A := fun w =>
  {| completion := Throw e; world := w; events := [] |}.

(** [process.exit()] *)
Definition process_exit {A} : M A := fun w =>
  {| completion := ProcessExit; world := w; events := [] |}.

(** A prompt the operator never answers. *)
Definition await_answer {A} : M A := fun w =>
  {| completion := AwaitingAnswer; world := w; events := [] |}.

(** [try { body } catch (error) { handler }]: only a thrown error reaches the
    handler. *)
Definition try_catch {A} (body : M A) (handler : JsError -> M A) : M A :=
  fun w =>
    let r := body w in
    match completion r with
    | Throw e => prepend (events r) (handler e (world r))
    | _ => r
    end.

Definition emit (e : Event) : M unit := fun w =>
  {| completion := Normal tt; world := w; events := [e] |}.

(** [for (const x of xs) { await body(x) }] *)
Fixpoint for_of {A} (xs : list A) (body : A -> M unit) : M unit :=
  match xs with
  | [] => mret tt
  | x :: rest => body x ;; for_of rest body
  end.

(** ** Redis

    [GET] answers with the stored string, [SET] stores a string and clears
    the key's time to live, [EXPIRE] sets the time to live of an existing
    key.  [elapse] is the passage of [d] seconds: a key whose time to live
    has run out is gone. *)

Definition client_get (key : string) : M (option string) := fun w =>
  let reply := value <$> redis w !! key in
  {| completion := Normal reply; world := w;
     events := [redis_get key reply] |}.

Definition client_set (key v : string) : M unit := fun w =>
  {| completion := Normal tt;
     world := set_redis (insert key {| value := v; ttl := None |}) w;
     events := [redis_set key v] |}.

Definition client_expire (key : string) (seconds : N) : M unit := fun w =>
  {| completion := Normal tt;
     world :=
       set_redis
         (alter (fun e => {| value := value e; ttl := Some seconds |}) key) w;
     events := [redis_expire key seconds] |}.

Definition age (d : N) (e : CacheEntry) : option CacheEntry :=
  match ttl e with
  | None => Some e
  | Some t => if (t <=? d)%N then None
              else Some {| value := value e; ttl := Some (t - d)%N |}
  end.

Definition elapse (d : N) (w : World) : World := set_redis (omap (age d)) w.

(** ** The YouTube service

    What the remote service does with a request it does not reject.  A search
    returns at most [maxResults] items; a listing of playlists returns the
    first page; a listing of playlist items needs a playlist and filters by
    video when one is given; an insert needs a playlist and a video. *)

Definition truncate (n : nat) (v : JsItems) : JsItems :=
  match v with
  | NonArray => NonArray
  | ArrayOf items => ArrayOf (take n items)
  end.

Definition item_matches (p : string) (v : option string) (i : PlaylistItem) : bool :=
  String.eqb (item_playlistId i) p &&
  match v with
  | None => true
  | Some v => String.eqb (item_videoId i) v
  end.

Definition serve (r : Request) (yt : YouTube) : Response * YouTube :=
  if faults yt r then (Rejected, yt) else
  match r with
  | search_list q n => (SearchListResponse (truncate n (catalogue yt q)), yt)
  | playlists_list n _ => (PlaylistListResponse (take n (playlists yt)), yt)
  | playlists_insert t =>
      let i := mint yt t (playlists yt) in
      (PlaylistResource i,
       {| catalogue := catalogue yt;
          playlists := {| pl_id := Some i; pl_title := t |} :: playlists yt;
          playlistItems := playlistItems yt;
          mint := mint yt; faults := faults yt |})
  | playlistItems_list (Some p) v n =>
      (PlaylistItemListResponse
         (take n (filter (fun i => item_matches p v i = true) (playlistItems yt))), yt)
  | playlistItems_list None _ _ => (Rejected, yt)
  | playlistItems_insert (Some p) {| videoId := Some v |} =>
      (PlaylistItemResource,
       {| catalogue := catalogue yt;
          playlists := playlists yt;
          playlistItems :=
            playlistItems yt ++ [{| item_playlistId := p; item_videoId := v |}];
          mint := mint yt; faults := faults yt |})
  | playlistItems_insert _ _ => (Rejected, yt)
  end.

(** An awaited call [service.x.y({...})]: the response, or a rejection. *)
Definition call (r : Request) : M Response := fun w =>
  let '(resp, yt) := serve r (service w) in
  {| completion :=
       match resp with
       | Rejected => Throw (GaxiosError r)
       | _ => Normal resp
       end;
     world := set_service yt w;
     events := [youtube r resp] |}.

(** ** JSON

    [JSON.stringify] and [JSON.parse] on the values the program stores:
    arrays of search results.  [JSON_parse] is [None] where [JSON.parse]
    throws a [SyntaxError]. *)
Class JSON := {
  JSON_stringify : list SearchResult -> string;
  JSON_parse : string -> option JsItems;
  JSON_parse_stringify :
    forall v, JSON_parse (JSON_stringify v) = Some (ArrayOf v);
  JSON_stringify_truthy : forall v, JSON_stringify v <> EmptyString;
}.

(** ** [src/utils.ts] *)

(** [s.split(sep)] for a one-character separator. *)
Fixpoint split (sep : ascii) (s : string) : list string :=
  match s with
  | EmptyString => [EmptyString]
  | String c rest =>
      if Ascii.eqb c sep then EmptyString :: split sep rest
      else match split sep rest with
           | [] => [String c EmptyString]
           | word :: words => String c word :: words
           end
  end.

(** [s.includes(sub)] *)
Fixpoint includes (sub s : string) : bool :=
  String.prefix sub s ||
  match s with
  | EmptyString => false
  | String _ rest => includes sub rest
  end.

(** [c.toUpperCase()] on the ASCII letters; other bytes are left alone. *)
Definition toUpperCase (c : ascii) : ascii :=
  let n := nat_of_ascii c in
  if ((97 <=? n) && (n <=? 122))%nat then ascii_of_nat (n - 32) else c.

(** The callback mapped over the words of the file name: strip a [.csv]
    extension, capitalise the first letter. *)
Definition title_word (word : string) : string :=
  let word :=
    if includes ".csv" word
    then String.substring 0 (String.length word - 4) word
    else word in
  match word with
  | EmptyString => EmptyString
  | String c rest => String (toUpperCase c) rest
  end.

(** [words.join(' ')] *)
Definition join_words (words : list string) : string :=
  String.concat " " words.

(** The [filename] field of [getCsvFile]'s result. *)
Definition display_name (file : string) : string :=
  join_words (title_word <$> split "_" file).

Definition assoc {A} (k : string) (l : list (string * A)) : option A :=
  snd <$> List.find (fun kv => String.eqb (fst kv) k) l.

(** [getCsvFile]: the operator picks a file of the [playlists] directory or
    [exit]; the file is read and parsed.  [answer] is the operator's choice
    at the prompt.  The directory maps a file name to the rows Papa Parse
    returns for its content; a row that is not an object is [None]. *)
Definition getCsvFile (answer : string)
    : M (list (option TrackData) * string) :=
  fun w =>
  let fileNames := fst <$> playlists_dir w in
  try_catch
    (emit (inquirer_prompt (fileNames ++ ["exit"]) answer);;
     (if String.eqb answer "exit"
      then process_exit
      else emit (console_info ("Answer: " +:+ answer)));;
     emit (console_log ("Parsing file: " +:+ answer));;
     match assoc answer (playlists_dir w) with
     | None => throw (ENOENT answer)
     | Some rows => mret (rows, display_name answer)
     end)
    (fun error =>
       emit (console_error "Error parsing csv file");;
       throw error)
    w.

(** ** [src/index.ts] *)

Section Importer.

Context `{JSON}.

Definition createRedisKey (data : TrackData) : string :=
  "youtube-data-for-" +:+ subst (Artist_Names data) +:+ "-"
    +:+ subst (Track_Name data).

Definition videoIsAlreadyInPlaylist (videoId playlistId : option string)
    : M bool :=
  emit (console_log "Checking if video is unique");;
  videoInPlaylist ← call (playlistItems_list playlistId videoId 50);
  match videoInPlaylist with
  | PlaylistItemListResponse items => mret (negb (length items =? 0)%nat)
  | _ => throw (reading "length")
  end.

(** [JSON.parse(text)]; the text [null] parses to [null]. *)
Definition parse_json (text : option string) : M JsItems :=
  match text with
  | Some text =>
      match JSON_parse text with
      | Some v => mret v
      | None => throw (SyntaxError "Unexpected token in JSON")
      end
  | None => mret NonArray
  end.

Definition getYoutubeTrackData (data : TrackData) (query : string)
    : M (list SearchResult) :=
  cacheData ← client_get (createRedisKey data);
  youtubeTrackData ←
    (if truthy cacheData then
       emit (console_log "Using cached track data");;
       parse_json cacheData
     else
       emit (console_log "Getting fresh track data from YouTube");;
       searchResults ← call (search_list query 1);
       match searchResults with
       | SearchListResponse items => mret items
       | _ => mret NonArray
       end);
  if negb (isArray youtubeTrackData) then
    throw (Error ("No items were returned for query: " +:+ query))
  else
    client_set (createRedisKey data)
      (JSON_stringify (elements_of youtubeTrackData));;
    client_expire (createRedisKey data) 86400;;
    mret (elements_of youtubeTrackData).

Definition addTrack (data : TrackData) (playlistId : option string) : M unit :=
  emit (call_addTrack data playlistId);;
  let query := subst (Artist_Names data) +:+ " " +:+ subst (Track_Name data) in
  emit (console_log ("Adding track " +:+ subst (Track_Name data) +:+ " to playlist"));;
  youtubeTrackData ← getYoutubeTrackData data query;
  top ← match youtubeTrackData !! 0%nat with
        | Some r => mret r
        | None => throw (reading "id")
        end;
  resourceId ← match sr_id top with
               | Some r => mret r
               | None => throw (reading "videoId")
               end;
  present ← videoIsAlreadyInPlaylist (videoId resourceId) playlistId;
  if (present : bool) then
    match sr_snippet top with
    | Some _ => emit (console_log "Video already in playlist")
    | None => throw (reading "title")
    end
  else
    try_catch
      (call (playlistItems_insert playlistId resourceId);;
       emit (console_log ("Added track " +:+ subst (Track_Name data) +:+ " to playlist")))
      (fun error => emit (console_error "Error adding track to playlist")).

(** The result object [{ exists, id }] of [playlistAlreadyExists]. *)
Record Located := {
  exists_ : bool;
  id : option string;
}.

(** The [for] loop of [playlistAlreadyExists] with its early [return]. *)
Fixpoint scan (items : list Playlist) (title : string) : Located :=
  match items with
  | [] => {| exists_ := false; id := None |}
  | pl :: rest =>
      if String.eqb (pl_title pl) title
      then {| exists_ := true; id := pl_id pl |}
      else scan rest title
  end.

Definition playlistAlreadyExists (title : string) : M Located :=
  existingPlaylists ← call (playlists_list 20 true);
  match existingPlaylists with
  | PlaylistListResponse items => mret (scan items title)
  | _ => throw (TypeError "existingPlaylists.data.items is not iterable")
  end.

(** The identifier the tracks go to: the located playlist's, or that of a
    playlist created under the file's name; when the creation fails the
    error is logged and the identifier stays what the locator returned. *)
Definition resolvedId_of (located : Located) (filename : string)
    : M (option string) :=
  if exists_ located then mret (id located)
  else
    try_catch
      (created ← call (playlists_insert filename);
       match created with
       | PlaylistResource i =>
           emit (console_log ("Created playlist " +:+ filename +:+ " with id " +:+ i));;
           mret (Some i)
       | _ => throw (TypeError "Cannot destructure property 'id'")
       end)
      (fun error =>
         emit (console_error "Error inserting playlist");;
         mret (id located)).

(** The body of the loop over [results.data]. *)
Definition loop_body (resolvedId : option string) (track : option TrackData)
    : M unit :=
  match track with
  | Some track => addTrack track resolvedId
  | None => mret tt
  end.

(** One invocation of [addPlaylist] up to, and without, the call of itself
    that ends it. *)
Definition addPlaylist_pass (answer : string) : M unit :=
  '(results, filename) ← getCsvFile answer;
  located ← playlistAlreadyExists filename;
  resolvedId ← resolvedId_of located filename;
  for_of results (loop_body resolvedId).

(** [addPlaylist]: a pass, then [addPlaylist(auth)] again.  The call is not
    awaited: the promise of the outer invocation resolves and the program
    goes on with the inner one, so the two run one after the other.
    [answers] are the operator's choices at the successive prompts; when
    they run out the program waits at the prompt. *)
Fixpoint addPlaylist (answers : list string) : M unit :=
  match answers with
  | [] => await_answer
  | answer :: later => addPlaylist_pass answer;; addPlaylist later
  end.

End Importer.

(** ** A JSON codec

    The text [JSON.stringify] writes for an array of search results, and a
    parser for that text.  Strings are quoted as ECMAScript's
    [QuoteJSONString] does: the quote, the backslash and the control
    characters are escaped. *)

Module Codec.

Definition dquote : ascii := ascii_of_nat 34.
Definition backslash : ascii := ascii_of_nat 92.

Definition hex_digit (n : nat) : ascii :=
  nth n (list_ascii_of_string "0123456789abcdef") "0"%char.

Definition escape_char (c : ascii) : string :=
  let n := nat_of_ascii c in
  if (n =? 34)%nat then String backslash (String dquote EmptyString)
  else if (n =? 92)%nat then String backslash (String backslash EmptyString)
  else if (n =? 8)%nat then String backslash "b"
  else if (n =? 9)%nat then String backslash "t"
  else if (n =? 10)%nat then String backslash "n"
  else if (n =? 12)%nat then String backslash "f"
  else if (n =? 13)%nat then String backslash "r"
  else if (n <? 32)%nat then
    String backslash ("u00" +:+ String (hex_digit (n / 16))
                                   (String (hex_digit (n mod 16)) EmptyString))
  else String c EmptyString.

Fixpoint escape (s : string) : string :=
  match s with
  | EmptyString => EmptyString
  | String c rest => escape_char c +:+ escape rest
  end.

Definition quote (s : string) : string :=
  String dquote (escape s +:+ String dquote EmptyString).

Definition field (key value : string) : string :=
  quote key +:+ ":" +:+ value.

Definition object (fields : list string) : string :=
  "{" +:+ String.concat "," fields +:+ "}".

Definition array (elements : list string) : string :=
  "[" +:+ String.concat "," elements +:+ "]".

Definition opt_field {A} (key : string) (print : A -> string) (x : option A)
    : list string :=
  match x with
  | None => []
  | Some a => [field key (print a)]
  end.

Definition print_ResourceId (r : ResourceId) : string :=
  object (opt_field "kind" quote (kind r) ++ opt_field "videoId" quote (videoId r)).

Definition print_Snippet (s : SearchResultSnippet) : string :=
  object (opt_field "title" quote (title s)).

Definition print_SearchResult (r : SearchResult) : string :=
  object (opt_field "id" print_ResourceId (sr_id r)
          ++ opt_field "snippet" print_Snippet (sr_snippet r)).

Definition stringify (items : list SearchResult) : string :=
  array (print_SearchResult <$> items).

(** A parser takes a value off the front of the text and returns the rest. *)
Definition Parser (A : Type) : Type := string -> option (A * string).

Definition hex_value (c : ascii) : option nat :=
  let n := nat_of_ascii c in
  if ((48 <=? n) && (n <=? 57))%nat then Some (n - 48)
  else if ((97 <=? n) && (n <=? 102))%nat then Some (n - 87)
  else if ((65 <=? n) && (n <=? 70))%nat then Some (n - 55)
  else None.

Definition unescape (c : ascii) : option ascii :=
  let n := nat_of_ascii c in
  if (n =? 34)%nat then Some dquote
  else if (n =? 92)%nat then Some backslash
  else if (n =? 47)%nat then Some "/"%char
  else if (n =? 98)%nat then Some (ascii_of_nat 8)
  else if (n =? 116)%nat then Some (ascii_of_nat 9)
  else if (n =? 110)%nat then Some (ascii_of_nat 10)
  else if (n =? 102)%nat then Some (ascii_of_nat 12)
  else if (n =? 114)%nat then Some (ascii_of_nat 13)
  else None.

(** The characters of a string literal after its opening quote. *)
Fixpoint string_body (s : string) : option (string * string) :=
  match s with
  | EmptyString => None
  | String c rest =>
      if Ascii.eqb c dquote then Some (EmptyString, rest)
      else if Ascii.eqb c backslash then
        match rest with
        | String "u" (String "0" (String "0" (String h (String l rest')))) =>
            hi ← hex_value h;
            lo ← hex_value l;
            '(body, after) ← string_body rest';
            Some (String (ascii_of_nat (16 * hi + lo)) body, after)
        | String e rest' =>
            c' ← unescape e;
            '(body, after) ← string_body rest';
            Some (String c' body, after)
        | EmptyString => None
        end
      else if (nat_of_ascii c <? 32)%nat then None
      else
        '(body, after) ← string_body rest;
        Some (String c body, after)
  end.

Definition parse_string : Parser string := fun s =>
  match s with
  | String c rest => if Ascii.eqb c dquote then string_body rest else None
  | EmptyString => None
  end.

(** [expect lit] takes the literal text [lit] off the front. *)
Fixpoint expect (lit s : string) : option string :=
  match lit, s with
  | EmptyString, _ => Some s
  | String a lit', String b s' => if Ascii.eqb a b then expect lit' s' else None
  | String _ _, EmptyString => None
  end.

(** A field [key] that may be absent. *)
Definition parse_opt_field {A} (key : string) (p : Parser A)
    : Parser (option A) := fun s =>
  match expect (field key EmptyString) s with
  | Some rest => '(a, after) ← p rest; Some (Some a, after)
  | None => Some (None, s)
  end.

(** An object of two optional fields, in the order the printer writes
    them. *)
Definition parse_object2 {A B} (k1 : string) (p1 : Parser A)
    (k2 : string) (p2 : Parser B) : Parser (option A * option B) := fun s =>
  s ← expect "{" s;
  '(a, s) ← parse_opt_field k1 p1 s;
  '(b, s) ←
    match a with
    | None => parse_opt_field k2 p2 s
    | Some _ =>
        match expect "," s with
        | Some s' =>
            '(b, s'') ← parse_opt_field k2 p2 s';
            match b with
            | Some _ => Some (b, s'')
            | None => None
            end
        | None => Some (None, s)
        end
    end;
  s ← expect "}" s;
  Some ((a, b), s).

Definition parse_object1 {A} (k : string) (p : Parser A)
    : Parser (option A) := fun s =>
  s ← expect "{" s;
  '(a, s) ← parse_opt_field k p s;
  s ← expect "}" s;
  Some (a, s).

Definition parse_ResourceId : Parser ResourceId := fun s =>
  '((k, v), s) ← parse_object2 "kind" parse_string "videoId" parse_string s;
  Some ({| kind := k; videoId := v |}, s).

Definition parse_Snippet : Parser SearchResultSnippet := fun s =>
  '(t, s) ← parse_object1 "title" parse_string s;
  Some ({| title := t |}, s).

Definition parse_SearchResult : Parser SearchResult := fun s =>
  '((i, sn), s) ← parse_object2 "id" parse_ResourceId "snippet" parse_Snippet s;
  Some ({| sr_id := i; sr_snippet := sn |}, s).

(** The elements of a non-empty array after its opening bracket. *)
Fixpoint elements {A} (fuel : nat) (p : Parser A) (s : string)
    : option (list A * string) :=
  match fuel with
  | O => None
  | S fuel =>
      '(a, s) ← p s;
      match s with
      | String "," s => '(l, s) ← elements fuel p s; Some (a :: l, s)
      | String "]" s => Some ([a], s)
      | _ => None
      end
  end.

Definition parse_array {A} (p : Parser A) : Parser (list A) := fun s =>
  match s with
  | String "[" (String "]" s) => Some ([], s)
  | String "[" s => elements (String.length s) p s
  | _ => None
  end.

(** [JSON.parse] on this fragment: an array of search results, or one of the
    literals that are not arrays; anything else is a syntax error. *)
Definition parse (s : string) : option JsItems :=
  match parse_array parse_SearchResult s with
  | Some (items, EmptyString) => Some (ArrayOf items)
  | _ =>
      if String.eqb s "null" || String.eqb s "true" || String.eqb s "false"
         || String.eqb s "{}"
      then Some NonArray else None
  end.

(** [p] reads back what [print] writes, whatever follows it. *)
Definition roundtrips {A} (print : A -> string) (p : Parser A) : Prop :=
  forall a t, p (print a +:+ t) = Some (a, t).

End Codec.


(** ** Observations on a trace *)

Definition is_console (e : Event) : bool :=
  match e with
  | console_log _ | console_info _ | console_error _ => true
  | _ => false
  end.

(** A request to the YouTube service. *)
Definition is_request (e : Event) : bool :=
  match e with
  | youtube _ _ => true
  | _ => false
  end.

(** The membership check of the duplicate guard. *)
Definition is_check (e : Event) : bool :=
  match e with
  | youtube (playlistItems_list _ _ _) _ => true
  | _ => false
  end.

(** An attempt to insert a video into a playlist. *)
Definition is_insert (e : Event) : bool :=
  match e with
  | youtube (playlistItems_insert _ _) _ => true
  | _ => false
  end.

(** The creation of a playlist. *)
Definition is_create (e : Event) : bool :=
  match e with
  | youtube (playlists_insert _) _ => true
  | _ => false
  end.

(** The events the resolver can perform. *)
Definition resolver_event (e : Event) : bool :=
  match e with
  | console_log _ | redis_get _ _ | redis_set _ _ | redis_expire _ _
  | youtube (search_list _ _) _ => true
  | _ => false
  end.

(** An event that names a playlist names [i]. *)
Definition uses_playlist (i : option string) (e : Event) : Prop :=
  match e with
  | youtube (playlistItems_list p _ _) _
  | youtube (playlistItems_insert p _) _
  | call_addTrack _ p => p = i
  | _ => True
  end.

(** The records [addTrack] was called with, in order. *)
Definition attempts (evs : list Event) : list TrackData :=
  omap (fun e => match e with
                 | call_addTrack data _ => Some data
                 | _ => None
                 end) evs.

Definition is_prompt (e : Event) : bool :=
  match e with
  | inquirer_prompt _ _ => true
  | _ => false
  end.

(** The number of prompts the operator answered. *)
Definition prompts (evs : list Event) : nat :=
  length (filter (fun e => is_prompt e = true) evs).

(** The rows the guard [if (track)] lets through. *)
Definition records (rows : list (option TrackData)) : list TrackData :=
  omap (fun row => row) rows.

Section Stored.

Context `{JSON}.

(** The world after [client.set(key, JSON.stringify(items))] and
    [client.expire(key, 86400)]. *)
Definition stored (key : string) (items : list SearchResult) (w : World)
    : World :=
  set_redis (alter (fun e => {| value := value e; ttl := Some 86400%N |}) key)
    (set_redis (insert key {| value := JSON_stringify items; ttl := None |}) w).

End Stored.

Section Between.

Context `{JSON}.

(** What can happen between two calls of the resolver for a record: time
    passes, the resolver is called for some record, the YouTube service
    changes. *)
Inductive Step :=
| wait (d : N)
| resolve (data : TrackData) (query : string)
| remote (yt : YouTube).

Definition step (s : Step) (w : World) : World :=
  match s with
  | wait d => elapse d w
  | resolve data query => world (getYoutubeTrackData data query w)
  | remote yt => set_service yt w
  end.

(** The world after [steps]. *)
Definition after_steps (steps : list Step) (w : World) : World :=
  foldl (fun w s => step s w) w steps.

(** The seconds that pass in [steps]. *)
Definition waited (steps : list Step) : N :=
  foldr (fun s n => match s with wait d => (d + n)%N | _ => n end) 0%N steps.

End Between.

Definition checking : Event := console_log "Checking if video is unique".

(** What [addTrack] does once the resolver has ended with the first
    completion: its own completion and the events after the resolver's. *)
Inductive track_outcome (playlistId : option string)
    : Completion (list SearchResult) -> Completion unit -> list Event -> Prop :=
| unresolved e :
    track_outcome playlistId (Throw e) (Throw e) []
| no_candidate :
    track_outcome playlistId (Normal []) (Throw (reading "id")) []
| no_resource top rest :
    sr_id top = None ->
    track_outcome playlistId (Normal (top :: rest))
      (Throw (reading "videoId")) []
| check_rejected top rest rid :
    sr_id top = Some rid ->
    track_outcome playlistId (Normal (top :: rest))
      (Throw (GaxiosError (playlistItems_list playlistId (videoId rid) 50)))
      [checking;
       youtube (playlistItems_list playlistId (videoId rid) 50) Rejected]
| already_present top rest rid items c post :
    sr_id top = Some rid ->
    items <> [] ->
    Forall (fun e => is_console e = true) post ->
    c = Normal tt \/ c = Throw (reading "title") ->
    track_outcome playlistId (Normal (top :: rest)) c
      (checking
       :: youtube (playlistItems_list playlistId (videoId rid) 50)
            (PlaylistItemListResponse items)
       :: post)
| insert_attempted top rest rid resp post :
    sr_id top = Some rid ->
    Forall (fun e => is_console e = true) post ->
    track_outcome playlistId (Normal (top :: rest)) (Normal tt)
      (checking
       :: youtube (playlistItems_list playlistId (videoId rid) 50)
            (PlaylistItemListResponse [])
       :: youtube (playlistItems_insert playlistId rid) resp
       :: post).

(** ** Further observations *)

(** [word.charAt(0).toUpperCase() + word.slice(1)] *)
Definition capitalise (word : string) : string :=
  match word with
  | EmptyString => EmptyString
  | String c rest => String (toUpperCase c) rest
  end.

(** The requests of a trace, in order. *)
Definition requests (evs : list Event) : list Event :=
  filter (fun e => is_request e = true) evs.

(** The log line that follows an insert request. *)
Definition insert_report (name : option string) (response : Response) : Event :=
  match response with
  | Rejected => console_error "Error adding track to playlist"
  | _ => console_log ("Added track " +:+ subst name +:+ " to playlist")
  end.

(** The identifier a pass works with after the creation request got
    [response]. *)
Definition created_id (response : Response) : option string :=
  match response with
  | PlaylistResource i => Some i
  | _ => None
  end.

(** What a call of [addTrack] for a record with the search text [query]
    and the playlist [p] may do: a search for [query] with [maxResults] 1, a
    membership check of [p] with [maxResults] 50, an insert into [p], and
    anything that is neither a request nor a prompt. *)
Definition track_event (query : string) (p : option string) (e : Event)
    : Prop :=
  match e with
  | youtube (search_list q n) _ => q = query /\ n = 1%nat
  | youtube (playlistItems_list p' _ n) _ => p' = p /\ n = 50%nat
  | youtube (playlistItems_insert p' _) _ => p' = p
  | youtube _ _ | inquirer_prompt _ _ => False
  | _ => True
  end.

(** The log line that follows a creation request. *)
Definition create_report (title : string) (response : Response) : Event :=
  match response with
  | PlaylistResource i =>
      console_log ("Created playlist " +:+ title +:+ " with id " +:+ i)
  | _ => console_error "Error inserting playlist"
  end.

(** An event that is neither a prompt nor a request other than a search or
    an insert into a playlist. *)
Definition search_or_insert (e : Event) : bool :=
  match e with
  | youtube (search_list _ _) _ | youtube (playlistItems_insert _ _) _ => true
  | youtube _ _ | inquirer_prompt _ _ => false
  | _ => true
  end.

(** ** The earlier program

    The second program of [src/unnamed/part_000] (its lines 341 to 571) is
    an earlier [src/index.ts]: [createRedisKey] and [getYoutubeTrackData]
    are the same, [addTrack] has no duplicate guard, and [addPlaylist]
    creates the playlist without looking for one, wraps the creation and
    the loop in one [try], and does not call itself.  A row is passed to
    [addTrack] without a test; [None] is a row that is [null] or
    [undefined].  An absent [resourceId] goes into the insert request as one
    without fields. *)

Module Earlier.

Section Importer.

Context `{JSON}.

Definition addTrack (data : option TrackData) (playlistId : option string)
    : M unit :=
  match data with
  | None => throw (reading "Artist Name(s)")
  | Some data =>
      emit (call_addTrack data playlistId);;
      let query :=
        subst (Artist_Names data) +:+ " " +:+ subst (Track_Name data) in
      emit (console_log
              ("Adding track " +:+ subst (Track_Name data) +:+ " to playlist"));;
      youtubeTrackData ← getYoutubeTrackData data query;
      top ← match youtubeTrackData !! 0%nat with
            | Some r => mret r
            | None => throw (reading "id")
            end;
      let resourceId :=
        default {| kind := None; videoId := None |} (sr_id top) in
      try_catch
        (call (playlistItems_insert playlistId resourceId);;
         emit (console_log
                 ("Added track " +:+ subst (Track_Name data) +:+ " to playlist")))
        (fun error => emit (console_error "Error adding track to playlist"))
  end.

Definition addPlaylist (answer : string) : M unit :=
  '(results, filename) ← getCsvFile answer;
  try_catch
    (created ← call (playlists_insert filename);
     i ← match created with
         | PlaylistResource i => mret i
         | _ => throw (TypeError "Cannot destructure property 'id'")
         end;
     emit (console_log
             ("Created playlist " +:+ filename +:+ " with id " +:+ i));;
     for_of results (fun track => addTrack track (Some i)))
    (fun error => emit (console_error "Error inserting playlist")).

End Importer.

End Earlier.

(** ** A scenario

    An account without playlists, a catalogue of three queries and a
    directory of exports. *)

Module Scenario.

Definition track (artist name : string) : TrackData :=
  {| Track_URI := "spotify:track:" +:+ name;
     Track_Name := Some name; Artist_URIs := None; Artist_Names := Some artist;
     Album_URI := None; Album_Name := None; Album_Artist_URIs := None;
     Album_Artist_Names := None; Album_Release_Date := None;
     Album_Image_URL := None; Disc_Number := None; Track_Number := None;
     Track_Duration_ms := None; Track_Preview_URL := None; Explicit := None;
     Popularity := None; ISRC := None; Added_By := None; Added_At := None |}.

Definition video (v t : string) : SearchResult :=
  {| sr_id := Some {| kind := Some "youtube#video"; videoId := Some v |};
     sr_snippet := Some {| title := Some t |} |}.

(** The search finds a video for [A X] and for [B Y], nothing for [C Z]
    (an empty [items]) and answers without [items] for anything else. *)
Definition tube : YouTube :=
  {| catalogue := fun q =>
       if String.eqb q "A X"
       then ArrayOf [video "ax" "A - X"; video "ax2" "A - X (live)"]
       else if String.eqb q "B Y" then ArrayOf [video "by" "B - Y"]
       else if String.eqb q "C Z" then ArrayOf []
       else NonArray;
     playlists := [];
     playlistItems := [];
     mint := fun t _ => "PL-" +:+ t;
     faults := fun _ => false |}.

Definition single : list (option TrackData) := [Some (track "A" "X")].

Definition with_gap : list (option TrackData) :=
  [Some (track "A" "X"); Some (track "N" "O"); Some (track "B" "Y")].

Definition no_result : list (option TrackData) :=
  [Some (track "C" "Z"); Some (track "B" "Y")].

(** The records of the example of the specification. *)
Definition my_list : list (option TrackData) :=
  [Some (track "A" "X"); Some (track "A" "X"); Some (track "B" "Y")].

Definition start : World :=
  {| redis := ∅; service := tube;
     playlists_dir :=
       [("one.csv", single); ("gap.csv", with_gap); ("none.csv", no_result);
        ("my_list.csv", my_list)] |}.

(** The cache holds the empty array for [C Z], five seconds before it
    expires. *)
Definition cached_empty : World :=
  {| redis :=
       {[ "youtube-data-for-C-Z" := {| value := "[]"; ttl := Some 5%N |} ]};
     service := tube; playlists_dir := [] |}.

(** The account already has a playlist [One], second in the listing. *)
Definition with_playlist : World :=
  {| redis := ∅;
     service :=
       {| catalogue := catalogue tube;
          playlists := [ {| pl_id := Some "PL-0"; pl_title := "one" |};
                         {| pl_id := Some "PL-1"; pl_title := "One" |};
                         {| pl_id := Some "PL-2"; pl_title := "One" |} ];
          playlistItems := [];
          mint := mint tube; faults := faults tube |};
     playlists_dir := [("one.csv", single)] |}.

(** The account has twenty-one playlists and the one called [One] is the
    last. *)
Definition crowded : World :=
  {| redis := ∅;
     service :=
       {| catalogue := catalogue tube;
          playlists :=
            replicate 20 {| pl_id := Some "PL-x"; pl_title := "Other" |}
            ++ [ {| pl_id := Some "PL-21"; pl_title := "One" |} ];
          playlistItems := [];
          mint := mint tube; faults := faults tube |};
     playlists_dir := [("one.csv", single)] |}.

End Scenario.

(** ** Further cases

    The scenario with a service that rejects some requests, with entries in
    the cache that cannot be used, with a video already in a playlist, and
    with a catalogue that answers a query with a hyphen. *)

Module Cases.

Import Scenario.

(** [tube], rejecting the requests [f] picks. *)
Definition failing (f : Request -> bool) : YouTube :=
  {| catalogue := catalogue tube; playlists := playlists tube;
     playlistItems := playlistItems tube; mint := mint tube; faults := f |}.

Definition listing (r : Request) : bool :=
  match r with
  | playlists_list _ _ => true
  | _ => false
  end.

Definition creation (r : Request) : bool :=
  match r with
  | playlists_insert _ => true
  | _ => false
  end.

Definition insertion (r : Request) : bool :=
  match r with
  | playlistItems_insert _ _ => true
  | _ => false
  end.

(** The scenario on the service [yt]. *)
Definition on_service (yt : YouTube) : World :=
  {| redis := redis start; service := yt;
     playlists_dir := playlists_dir start |}.

(** The entry of [A X] is no JSON text, that of [B Y] is the text [null]. *)
Definition spoiled : World :=
  {| redis :=
       {[ "youtube-data-for-A-X" := {| value := "oops"; ttl := None |};
          "youtube-data-for-B-Y" := {| value := "null"; ttl := Some 60%N |} ]};
     service := tube; playlists_dir := [] |}.

(** The playlist [PL] holds the video of [A X]. *)
Definition holding : World :=
  on_service
    {| catalogue := catalogue tube; playlists := playlists tube;
       playlistItems := [ {| item_playlistId := "PL"; item_videoId := "ax" |} ];
       mint := mint tube; faults := faults tube |}.

(** The search finds a video for [a-b c] and answers without [items] for
    anything else. *)
Definition hyphens : World :=
  {| redis := ∅;
     service :=
       {| catalogue := fun q =>
            if String.eqb q "a-b c" then ArrayOf [video "abc" "a-b - c"]
            else NonArray;
          playlists := []; playlistItems := [];
          mint := mint tube; faults := faults tube |};
     playlists_dir := [] |}.

End Cases.

(** * Properties *)

(** ** Strings *)

Lemma append_cons (x : ascii) (a b : string) :
  String x a +:+ b = String x (a +:+ b).
Proof. reflexivity. Qed.

Lemma append_nil_l (b : string) : EmptyString +:+ b = b.
Proof. reflexivity. Qed.

Lemma append_assoc (a b c : string) : (a +:+ b) +:+ c = a +:+ (b +:+ c).
Proof.
  induction a as [|x a IH]; [reflexivity|].
  rewrite !append_cons. now f_equal.
Qed.

Lemma append_nil_r (a : string) : a +:+ EmptyString = a.
Proof.
  induction a as [|x a IH]; [reflexivity|].
  rewrite append_cons. now f_equal.
Qed.

Lemma length_append (a b : string) :
  String.length (a +:+ b) = String.length a + String.length b.
Proof.
  induction a as [|x a IH]; [reflexivity|].
  rewrite append_cons. cbn [String.length]. now rewrite IH.
Qed.

Lemma substring_skip (a b : string) (n : nat) :
  String.substring (String.length a) n (a +:+ b) = String.substring 0 n b.
Proof.
  induction a as [|x a IH]; [reflexivity|].
  rewrite append_cons. cbn [String.length String.substring]. exact IH.
Qed.

Lemma substring_prefix (a b : string) :
  String.substring 0 (String.length a) (a +:+ b) = a.
Proof.
  induction a as [|x a IH].
  - cbn [String.length]. now destruct b.
  - rewrite append_cons. cbn [String.length String.substring]. now rewrite IH.
Qed.

Create Rewrite HintDb str.
Hint Rewrite append_assoc append_cons append_nil_l append_nil_r : str.

(** ** The codec reads back what it writes *)

Module CodecFacts.
Import Codec.

Lemma string_body_escape_char (c : ascii) (u : string) :
  string_body (escape_char c +:+ u) =
  '(body, after) ← string_body u; Some (String c body, after).
Proof.
  destruct c as [[] [] [] [] [] [] [] []]; reflexivity.
Qed.

Lemma string_body_escape (s t : string) :
  string_body (escape s +:+ String dquote t) = Some (s, t).
Proof.
  induction s as [|c s IH]; [reflexivity|].
  cbn [escape]. rewrite append_assoc, string_body_escape_char, IH.
  reflexivity.
Qed.

Lemma parse_string_quote (s t : string) :
  parse_string (quote s +:+ t) = Some (s, t).
Proof.
  unfold quote. rewrite append_cons, append_assoc, append_cons, append_nil_l.
  cbn [parse_string].
  change (Ascii.eqb dquote dquote) with true. cbn iota.
  apply string_body_escape.
Qed.

Lemma expect_append (lit t : string) : expect lit (lit +:+ t) = Some t.
Proof.
  induction lit as [|a lit IH]; [now destruct t|].
  rewrite append_cons. cbn [expect]. now rewrite Ascii.eqb_refl.
Qed.

Lemma field_split (key v t : string) :
  field key v +:+ t = field key EmptyString +:+ (v +:+ t).
Proof. unfold field. now autorewrite with str. Qed.

Lemma parse_opt_field_present {A} key (print : A -> string) p a t :
  roundtrips print p ->
  parse_opt_field key p (field key (print a) +:+ t) = Some (Some a, t).
Proof.
  intros Hp. unfold parse_opt_field.
  now rewrite field_split, expect_append, Hp.
Qed.

Lemma parse_opt_field_absent {A} key (p : Parser A) s :
  expect (field key EmptyString) s = None ->
  parse_opt_field key p s = Some (None, s).
Proof. intros E. unfold parse_opt_field. now rewrite E. Qed.

Lemma expect_char (c : ascii) (t : string) :
  expect (String c EmptyString) (String c t) = Some t.
Proof. cbn [expect]. now rewrite Ascii.eqb_refl. Qed.

Lemma parse_object2_print {A B} k1 (pr1 : A -> string) p1
    k2 (pr2 : B -> string) p2 a b t :
  roundtrips pr1 p1 -> roundtrips pr2 p2 ->
  (forall u, expect (field k1 EmptyString) (field k2 EmptyString +:+ u) = None) ->
  parse_object2 k1 p1 k2 p2
    (object (opt_field k1 pr1 a ++ opt_field k2 pr2 b) +:+ t)
  = Some ((a, b), t).
Proof.
  intros H1 H2 Hk. unfold parse_object2, object.
  destruct a as [a|], b as [b|]; cbn [opt_field app String.concat];
    autorewrite with str; rewrite expect_char; cbn [mbind option_bind].
  - rewrite parse_opt_field_present by assumption. cbn [mbind option_bind].
    rewrite expect_char, parse_opt_field_present by assumption.
    cbn [mbind option_bind]. now rewrite expect_char.
  - rewrite parse_opt_field_present by assumption. cbn [mbind option_bind].
    change (expect "," (String "}" t)) with (@None string).
    cbn [mbind option_bind]. now rewrite expect_char.
  - rewrite parse_opt_field_absent by (rewrite field_split; apply Hk).
    cbn [mbind option_bind].
    rewrite parse_opt_field_present by assumption.
    cbn [mbind option_bind]. now rewrite expect_char.
  - rewrite !parse_opt_field_absent by reflexivity.
    cbn [mbind option_bind].
    rewrite !parse_opt_field_absent by reflexivity.
    cbn [mbind option_bind]. now rewrite expect_char.
Qed.

Lemma parse_object1_print {A} k (pr : A -> string) p a t :
  roundtrips pr p ->
  parse_object1 k p (object (opt_field k pr a) +:+ t) = Some (a, t).
Proof.
  intros Hp. unfold parse_object1, object.
  destruct a as [a|]; cbn [opt_field String.concat];
    autorewrite with str; rewrite expect_char; cbn [mbind option_bind].
  - rewrite parse_opt_field_present by assumption. cbn [mbind option_bind].
    now rewrite expect_char.
  - rewrite parse_opt_field_absent by reflexivity. cbn [mbind option_bind].
    now rewrite expect_char.
Qed.

Lemma parse_string_roundtrips : roundtrips quote parse_string.
Proof. intros s t. apply parse_string_quote. Qed.

Lemma parse_ResourceId_roundtrips : roundtrips print_ResourceId parse_ResourceId.
Proof.
  intros [k v] t. unfold print_ResourceId, parse_ResourceId.
  cbn [kind videoId].
  rewrite parse_object2_print;
    [reflexivity | apply parse_string_roundtrips.. | reflexivity].
Qed.

Lemma parse_Snippet_roundtrips : roundtrips print_Snippet parse_Snippet.
Proof.
  intros [ti] t. unfold print_Snippet, parse_Snippet. cbn [title].
  rewrite parse_object1_print; [reflexivity | apply parse_string_roundtrips].
Qed.

Lemma parse_SearchResult_roundtrips :
  roundtrips print_SearchResult parse_SearchResult.
Proof.
  intros [i sn] t. unfold print_SearchResult, parse_SearchResult.
  cbn [sr_id sr_snippet].
  rewrite parse_object2_print;
    [reflexivity | apply parse_ResourceId_roundtrips
     | apply parse_Snippet_roundtrips | reflexivity].
Qed.

Lemma concat_cons2 (sep x y : string) (l : list string) :
  String.concat sep (x :: y :: l) = x +:+ sep +:+ String.concat sep (y :: l).
Proof. reflexivity. Qed.

Lemma length_concat_ge (l : list string) (x : string) :
  length l <= String.length (String.concat "," (x :: l)).
Proof.
  revert x. induction l as [|y l IH]; intros x; [cbn; lia|].
  rewrite concat_cons2, !length_append. specialize (IH y).
  cbn [length String.length]. lia.
Qed.

Lemma elements_print {A} (pr : A -> string) p :
  roundtrips pr p ->
  forall l a fuel t,
    length l < fuel ->
    elements fuel p (String.concat "," (pr <$> a :: l) +:+ String "]" t)
    = Some (a :: l, t).
Proof.
  intros Hp. induction l as [|b l IH]; intros a fuel t Hf;
    (destruct fuel as [|fuel]; [cbn in Hf; lia|]); cbn [elements].
  - cbn [fmap list_fmap String.concat]. rewrite Hp. reflexivity.
  - change (pr <$> a :: b :: l) with (pr a :: pr b :: (pr <$> l)).
    rewrite concat_cons2, !append_assoc, Hp.
    cbn [mbind option_bind]. rewrite append_cons, append_nil_l.
    change (pr b :: (pr <$> l)) with (pr <$> b :: l).
    rewrite IH by (cbn in Hf; lia). reflexivity.
Qed.

Lemma parse_array_print {A} (pr : A -> string) p :
  roundtrips pr p ->
  (forall a, exists u, pr a = String "{" u) ->
  roundtrips (fun l => array (pr <$> l)) (parse_array p).
Proof.
  intros Hp Hb l t. unfold array. destruct l as [|a l].
  - reflexivity.
  - autorewrite with str.
    pose proof (elements_print pr p Hp l a) as E.
    change (pr <$> a :: l) with (pr a :: (pr <$> l)) in *.
    destruct (Hb a) as [u Hu].
    assert (exists v, String.concat "," (pr a :: (pr <$> l)) +:+ String "]" t
                      = String "{" v) as [v Hv].
    { destruct (pr <$> l); cbn [String.concat]; rewrite Hu; eauto. }
    unfold parse_array. rewrite Hv. rewrite <- Hv.
    apply E.
    rewrite length_append.
    pose proof (length_concat_ge (pr <$> l) (pr a)) as L.
    rewrite length_fmap in L. cbn [String.length]. lia.
Qed.

Lemma parse_stringify (items : list SearchResult) :
  parse (stringify items) = Some (ArrayOf items).
Proof.
  unfold parse, stringify.
  rewrite <- (append_nil_r (array _)).
  rewrite (parse_array_print print_SearchResult parse_SearchResult).
  - reflexivity.
  - apply parse_SearchResult_roundtrips.
  - intros a. unfold print_SearchResult, object. rewrite append_cons. eauto.
Qed.

Lemma stringify_truthy (items : list SearchResult) :
  stringify items <> EmptyString.
Proof. unfold stringify, array. rewrite append_cons. discriminate. Qed.

End CodecFacts.

(** The codec as an implementation of [JSON]. *)
Definition json : JSON := {|
  JSON_stringify := Codec.stringify;
  JSON_parse := Codec.parse;
  JSON_parse_stringify := CodecFacts.parse_stringify;
  JSON_stringify_truthy := CodecFacts.stringify_truthy;
|}.

(** ** Stepping through a computation *)

Lemma prepend_nil {A} (r : Result A) : prepend [] r = r.
Proof. now destruct r. Qed.

Lemma prepend_prepend {A} (e1 e2 : list Event) (r : Result A) :
  prepend e1 (prepend e2 r) = prepend (e1 ++ e2) r.
Proof. unfold prepend. cbn. now rewrite app_assoc. Qed.

Lemma step_ret {A B} (a : A) (k : A -> M B) (w : World) :
  (mret a ≫= k) w = k a w.
Proof. apply prepend_nil. Qed.

Lemma step_throw {A B} (e : JsError) (k : A -> M B) (w : World) :
  (throw e ≫= k) w = throw e w.
Proof. reflexivity. Qed.

Lemma step_emit {B} (e : Event) (k : unit -> M B) (w : World) :
  (emit e ≫= k) w = prepend [e] (k tt w).
Proof. reflexivity. Qed.

Lemma step_get {B} (key : string) (k : option string -> M B) (w : World) :
  (client_get key ≫= k) w =
  prepend [redis_get key (value <$> redis w !! key)]
    (k (value <$> redis w !! key) w).
Proof. reflexivity. Qed.

Lemma step_set {B} (key v : string) (k : unit -> M B) (w : World) :
  (client_set key v ≫= k) w =
  prepend [redis_set key v]
    (k tt (set_redis (insert key {| value := v; ttl := None |}) w)).
Proof. reflexivity. Qed.

Lemma step_expire {B} (key : string) (n : N) (k : unit -> M B) (w : World) :
  (client_expire key n ≫= k) w =
  prepend [redis_expire key n]
    (k tt (set_redis
             (alter (fun e => {| value := value e; ttl := Some n |}) key) w)).
Proof. reflexivity. Qed.

Lemma step_call {B} (r : Request) (k : Response -> M B) (w : World) :
  (call r ≫= k) w =
  match fst (serve r (service w)) with
  | Rejected =>
      {| completion := Throw (GaxiosError r);
         world := set_service (snd (serve r (service w))) w;
         events := [youtube r Rejected] |}
  | resp =>
      prepend [youtube r resp]
        (k resp (set_service (snd (serve r (service w))) w))
  end.
Proof.
  unfold mbind, M_bind, call.
  destruct (serve r (service w)) as [[] yt]; reflexivity.
Qed.

Lemma bind_assoc {A B C} (m : M A) (f : A -> M B) (g : B -> M C) (w : World) :
  ((m ≫= f) ≫= g) w = (m ≫= fun a => f a ≫= g) w.
Proof.
  unfold mbind, M_bind. cbn.
  destruct (completion (m w)); try reflexivity.
  cbn. destruct (completion (f a (world (m w)))); try reflexivity.
  now rewrite prepend_prepend.
Qed.

Lemma step_bind {A B} (m : M A) (k : A -> M B) (w : World) :
  (m ≫= k) w =
  match completion (m w) with
  | Normal a => prepend (events (m w)) (k a (world (m w)))
  | Throw e =>
      {| completion := Throw e; world := world (m w); events := events (m w) |}
  | ProcessExit =>
      {| completion := ProcessExit; world := world (m w); events := events (m w) |}
  | AwaitingAnswer =>
      {| completion := AwaitingAnswer; world := world (m w); events := events (m w) |}
  end.
Proof. reflexivity. Qed.

Create Rewrite HintDb run.
Hint Rewrite @step_ret @step_throw @step_emit @step_get @step_set
  @step_expire @prepend_prepend : run.

(** ** The cache key *)

(** C7 (cache key format).  For a record with both fields present the key
    is the text [youtube-data-for-], the artist field, a hyphen and the
    track-name field; both fields sit in the key unchanged, at the offsets
    their lengths give. *)
Theorem createRedisKey_format (data : TrackData) (artist name : string) :
  Artist_Names data = Some artist ->
  Track_Name data = Some name ->
  createRedisKey data = "youtube-data-for-" +:+ artist +:+ "-" +:+ name
  /\ String.substring 17 (String.length artist) (createRedisKey data) = artist
  /\ String.substring (17 + String.length artist + 1) (String.length name)
       (createRedisKey data) = name.
Proof.
  intros Ha Hn. unfold createRedisKey. rewrite Ha, Hn. cbn [subst default].
  split; [reflexivity|]. split.
  - change 17 with (String.length "youtube-data-for-").
    now rewrite substring_skip, substring_prefix.
  - replace (17 + String.length artist + 1)
      with (String.length ("youtube-data-for-" +:+ artist +:+ "-")).
    + rewrite <- (append_nil_r name) at 2.
      rewrite <- !append_assoc.
      rewrite substring_skip. apply substring_prefix.
    + rewrite !length_append. reflexivity.
Qed.

Section Props.

Context {J : JSON}.

(** ** The resolver *)

Lemma truthy_stringify items : truthy (Some (JSON_stringify items)) = true.
Proof.
  cbn [truthy].
  destruct (String.eqb_spec (JSON_stringify items) EmptyString) as [E|E];
    [|reflexivity].
  now apply JSON_stringify_truthy in E.
Qed.

Lemma set_service_same (w : World) : set_service (service w) w = w.
Proof. now destruct w. Qed.

(** What the search request does to the world: nothing. *)
Lemma serve_search (q : string) (n : nat) (yt : YouTube) :
  serve (search_list q n) yt =
  (if faults yt (search_list q n) then Rejected
   else SearchListResponse (truncate n (catalogue yt q)), yt).
Proof. unfold serve. now destruct (faults yt _). Qed.

Lemma redis_stored key items w :
  redis (stored key items w) !! key =
  Some {| value := JSON_stringify items; ttl := Some 86400%N |}.
Proof.
  unfold stored, set_redis. cbn [redis].
  now rewrite lookup_alter_eq, lookup_insert_eq.
Qed.

Lemma redis_stored_other key key' items w :
  key' <> key ->
  redis (stored key' items w) !! key = redis w !! key.
Proof.
  intros Hne. unfold stored, set_redis. cbn [redis].
  now rewrite lookup_alter_ne, lookup_insert_ne.
Qed.

Lemma redis_elapse (d : N) (w : World) (key : string) :
  redis (elapse d w) !! key = redis w !! key ≫= age d.
Proof. unfold elapse, set_redis. cbn [redis]. apply lookup_omap. Qed.

Lemma resolve_hit (w : World) (data : TrackData) (query : string) e items :
  redis w !! createRedisKey data = Some e ->
  value e = JSON_stringify items ->
  getYoutubeTrackData data query w =
  {| completion := Normal items;
     world := stored (createRedisKey data) items w;
     events := [redis_get (createRedisKey data) (Some (JSON_stringify items));
                console_log "Using cached track data";
                redis_set (createRedisKey data) (JSON_stringify items);
                redis_expire (createRedisKey data) 86400] |}.
Proof.
  intros Hk Hv. unfold getYoutubeTrackData.
  rewrite step_get, Hk. cbn [fmap option_fmap option_map]. rewrite Hv.
  rewrite truthy_stringify. unfold parse_json.
  rewrite JSON_parse_stringify.
  rewrite bind_assoc. autorewrite with run.
  reflexivity.
Qed.

(** The resolver either returns a sequence it has just stored, or throws
    and leaves the world as it was. *)
Lemma resolve_cases (data : TrackData) (query : string) (w : World) :
  let key := createRedisKey data in
  (exists items pre,
     getYoutubeTrackData data query w =
     {| completion := Normal items;
        world := stored key items w;
        events := pre ++ [redis_set key (JSON_stringify items);
                          redis_expire key 86400] |}
     /\ Forall (fun e => resolver_event e = true) pre)
  \/
  (exists e pre,
     getYoutubeTrackData data query w =
     {| completion := Throw e; world := w; events := pre |}
     /\ Forall (fun e => resolver_event e = true) pre).
Proof.
  intros key. unfold getYoutubeTrackData. fold key.
  rewrite step_get.
  destruct (truthy (value <$> redis w !! key)) eqn:Ht.
  - rewrite bind_assoc, step_emit. unfold parse_json.
    destruct (value <$> redis w !! key) as [text|] eqn:Hc; [|discriminate].
    destruct (JSON_parse text) as [[|items]|] eqn:Hp.
    + right. autorewrite with run. unfold throw. cbn.
      eexists _, _. split; [reflexivity|]. repeat constructor.
    + left. autorewrite with run. cbn.
      exists items, [redis_get key (Some text); console_log "Using cached track data"].
      split; [reflexivity|]. repeat constructor.
    + right. autorewrite with run. unfold throw. cbn.
      eexists _, _. split; [reflexivity|]. repeat constructor.
  - rewrite bind_assoc, step_emit, bind_assoc, step_call, serve_search.
    cbn [fst snd]. rewrite set_service_same.
    destruct (faults (service w) (search_list query 1)).
    + right. cbn. eexists _, _. split; [reflexivity|]. repeat constructor.
    + destruct (truncate 1 (catalogue (service w) query)) as [|items] eqn:Hs.
      * right. autorewrite with run. unfold throw. cbn.
        eexists _, _. split; [reflexivity|]. repeat constructor.
      * left. autorewrite with run. cbn.
        exists items, [redis_get key (value <$> redis w !! key);
                       console_log "Getting fresh track data from YouTube";
                       youtube (search_list query 1)
                         (SearchListResponse (ArrayOf items))].
        split; [reflexivity|]. repeat constructor.
Qed.

Lemma resolve_events (data : TrackData) (query : string) (w : World) :
  Forall (fun e => resolver_event e = true)
    (events (getYoutubeTrackData data query w)).
Proof.
  destruct (resolve_cases data query w)
    as [(items & pre & -> & Hpre)|(e & pre & -> & Hpre)]; cbn [events].
  - apply Forall_app. split; [assumption | repeat constructor].
  - assumption.
Qed.

Lemma resolve_returns (data : TrackData) (query : string) (w : World)
    (items : list SearchResult) :
  let r := getYoutubeTrackData data query w in
  let key := createRedisKey data in
  completion r = Normal items ->
  world r = stored key items w
  /\ exists pre,
       events r = pre ++ [redis_set key (JSON_stringify items);
                          redis_expire key 86400].
Proof.
  intros r key. subst r.
  destruct (resolve_cases data query w)
    as [(items' & pre & -> & _)|(e & pre & -> & _)]; cbn [completion world events];
    intros [= <-].
  split; [reflexivity | now exists pre].
Qed.

(** A value that is not an array is refused, with the query in the
    message. *)
Lemma resolve_non_array (data : TrackData) (query : string) (w : World) :
  truthy (value <$> redis w !! createRedisKey data) = false ->
  faults (service w) (search_list query 1) = false ->
  catalogue (service w) query = NonArray ->
  completion (getYoutubeTrackData data query w)
  = Throw (Error ("No items were returned for query: " +:+ query)).
Proof.
  intros Ht Hf Hc. unfold getYoutubeTrackData.
  rewrite step_get, Ht, bind_assoc, step_emit, bind_assoc, step_call,
    serve_search, Hf, Hc.
  reflexivity.
Qed.

(** An array from the search is accepted whatever its length. *)
Lemma resolve_fresh (data : TrackData) (query : string) (w : World)
    (items : list SearchResult) :
  truthy (value <$> redis w !! createRedisKey data) = false ->
  faults (service w) (search_list query 1) = false ->
  catalogue (service w) query = ArrayOf items ->
  completion (getYoutubeTrackData data query w) = Normal (take 1 items).
Proof.
  intros Ht Hf Hc. unfold getYoutubeTrackData.
  rewrite step_get, Ht, bind_assoc, step_emit, bind_assoc, step_call,
    serve_search, Hf, Hc.
  cbn [fst snd truncate]. autorewrite with run. reflexivity.
Qed.

(** C5 (TTL re-arm).  Whenever the resolver returns a sequence, from the
    cache or from the search, the last two things it did were to set the
    record's key to the serialised sequence and to give the key 86400
    seconds to live; in the store it leaves, the key holds that text with
    the full 86400 seconds, whatever time the entry had left before. *)
Theorem getYoutubeTrackData_rearms_ttl
    (data : TrackData) (query : string) (w : World) (items : list SearchResult) :
  let r := getYoutubeTrackData data query w in
  let key := createRedisKey data in
  completion r = Normal items ->
  redis (world r) !! key
    = Some {| value := JSON_stringify items; ttl := Some 86400%N |}
  /\ exists pre,
       events r = pre ++ [redis_set key (JSON_stringify items);
                          redis_expire key 86400].
Proof.
  intros r key Hr.
  destruct (resolve_returns data query w items Hr) as [Hw Hev].
  fold r in Hw. split; [|exact Hev].
  rewrite Hw. apply redis_stored.
Qed.

(** A live entry written by the resolver outlives whatever happens in less
    time than it has left: waiting wears it down, a call for the same key
    hits it and renews it, a call for another key leaves it alone. *)
Lemma after_keeps_entry (key : string) (items : list SearchResult)
    (steps : list Step) :
  forall (w : World) (t : N),
    redis w !! key = Some {| value := JSON_stringify items; ttl := Some t |} ->
    (waited steps < t)%N -> (t <= 86400)%N ->
    exists t',
      redis (after_steps steps w) !! key
      = Some {| value := JSON_stringify items; ttl := Some t' |}.
Proof.
  induction steps as [|s steps IH]; intros w t Hw Hlt Hle.
  - now exists t.
  - change (after_steps (s :: steps) w) with (after_steps steps (step s w)).
    destruct s as [d|data query|yt]; cbn [waited foldr] in Hlt;
      fold (waited steps) in Hlt; cbn [step].
    + apply (IH _ (t - d)%N); [|lia|lia].
      rewrite redis_elapse, Hw. cbn. unfold age. cbn [ttl value].
      destruct (N.leb_spec t d); [lia | reflexivity].
    + destruct (decide (createRedisKey data = key)) as [<-|Hne].
      * erewrite resolve_hit; [|exact Hw|reflexivity]. cbn [world].
        apply (IH _ 86400%N); [apply redis_stored|lia|lia].
      * destruct (resolve_cases data query w)
          as [(items' & pre & -> & _)|(e & pre & -> & _)]; cbn [world].
        -- apply (IH _ t); [|assumption..].
           now rewrite redis_stored_other.
        -- now apply (IH _ t).
    + now apply (IH _ t).
Qed.

(** C4 (cache correctness).  A record is resolved, and resolved again after
    any sequence of steps (waiting, calls of the resolver for this or other
    records, changes of the YouTube service) in which less than the 24
    hours given to the entry pass: the second call returns the sequence of
    the first, hence the same top candidate, and sends no request to the
    service. *)
Theorem second_resolve_uses_cache
    (data : TrackData) (query : string) (w : World)
    (items : list SearchResult) (steps : list Step) :
  let first := getYoutubeTrackData data query w in
  let second := getYoutubeTrackData data query (after_steps steps (world first)) in
  completion first = Normal items ->
  (waited steps < 86400)%N ->
  completion second = Normal items
  /\ Forall (fun e => is_request e = false) (events second).
Proof.
  intros first second Hfirst Hlt.
  destruct (resolve_returns data query w items Hfirst) as [Hw _].
  fold first in Hw.
  destruct (after_keeps_entry (createRedisKey data) items steps
              (world first) 86400%N) as [t' Hlive];
    [rewrite Hw; apply redis_stored | assumption | lia |].
  subst second. erewrite resolve_hit; [|exact Hlive|reflexivity].
  split; [reflexivity | repeat constructor].
Qed.

(** ** One record *)

Lemma check_cases (v p : option string) (w : World) :
  videoIsAlreadyInPlaylist v p w =
  {| completion := Throw (GaxiosError (playlistItems_list p v 50));
     world := w;
     events := [checking; youtube (playlistItems_list p v 50) Rejected] |}
  \/ exists items,
     videoIsAlreadyInPlaylist v p w =
     {| completion := Normal (negb (length items =? 0)%nat);
        world := w;
        events := [checking;
                   youtube (playlistItems_list p v 50)
                     (PlaylistItemListResponse items)] |}.
Proof.
  unfold videoIsAlreadyInPlaylist. rewrite step_emit, step_call.
  unfold serve.
  destruct (faults (service w) _); cbn [fst snd]; rewrite ?set_service_same.
  - now left.
  - destruct p as [p|]; cbn [fst snd]; rewrite ?set_service_same.
    + right. eexists. autorewrite with run. reflexivity.
    + now left.
Qed.

Lemma insert_cases (p : option string) (rid : ResourceId) (name : string)
    (w : World) :
  exists resp post w',
    try_catch
      (call (playlistItems_insert p rid);;
       emit (console_log ("Added track " +:+ name +:+ " to playlist")))
      (fun error => emit (console_error "Error adding track to playlist")) w
    = {| completion := Normal tt; world := w';
         events := youtube (playlistItems_insert p rid) resp :: post |}
    /\ Forall (fun e => is_console e = true) post.
Proof.
  unfold try_catch. rewrite step_call.
  destruct (fst (serve (playlistItems_insert p rid) (service w))) eqn:E;
    cbn; eexists _, _, _; (split; [reflexivity|]); repeat constructor.
Qed.

Lemma addTrack_cases (data : TrackData) (playlistId : option string) (w : World) :
  let query := subst (Artist_Names data) +:+ " " +:+ subst (Track_Name data) in
  let R := getYoutubeTrackData data query w in
  exists tail,
    events (addTrack data playlistId w) =
      call_addTrack data playlistId
      :: console_log ("Adding track " +:+ subst (Track_Name data) +:+ " to playlist")
      :: events R ++ tail
    /\ track_outcome playlistId (completion R)
         (completion (addTrack data playlistId w)) tail.
Proof.
  intros query R. unfold addTrack. fold query.
  rewrite step_emit. rewrite step_emit. rewrite step_bind. fold R.
  destruct (resolve_cases data query w) as [(items & pre & HR & _)|(e & pre & HR & _)];
    fold query in HR; fold R in HR; rewrite HR; cbn [completion events world].
  2:{ exists []. cbn. rewrite app_nil_r. split; [reflexivity | constructor]. }
  destruct items as [|top rest]; cbn [lookup list_lookup].
  { rewrite step_throw. exists []. cbn. rewrite !app_nil_r.
    split; [reflexivity | constructor]. }
  rewrite step_ret.
  destruct (sr_id top) as [rid|] eqn:Hid.
  2:{ rewrite step_throw. exists []. cbn. rewrite !app_nil_r.
      split; [reflexivity | now constructor]. }
  rewrite step_ret, step_bind.
  destruct (check_cases (videoId rid) playlistId
              (stored (createRedisKey data) (top :: rest) w)) as [Hc|[items Hc]];
    rewrite Hc; cbn [completion events world].
  { eexists. cbn. split; [reflexivity | now constructor]. }
  destruct items as [|item items]; cbn [length Nat.eqb negb].
  - destruct (insert_cases playlistId rid (subst (Track_Name data))
                (stored (createRedisKey data) (top :: rest) w))
      as (resp & post & w' & Hi & Hpost).
    rewrite Hi. eexists. cbn. split; [reflexivity | now constructor].
  - destruct (sr_snippet top); eexists; cbn;
      (split; [reflexivity|]);
      (eapply already_present;
         [eassumption | discriminate | repeat constructor | auto]).
Qed.

Lemma split_after {A} (P : A -> Prop) (l1 l2 before after : list A) (x : A) :
  l1 ++ l2 = before ++ x :: after ->
  Forall (fun y => ~ P y) l1 -> P x ->
  exists m, before = l1 ++ m /\ l2 = m ++ x :: after.
Proof.
  revert before. induction l1 as [|y l1 IH]; intros before E Hl Hx.
  - now exists before.
  - apply Forall_cons in Hl as [Hy Hl]. destruct before as [|b before].
    + cbn in E. injection E as -> _. contradiction.
    + cbn in E. injection E as -> E.
      destruct (IH before E Hl Hx) as (m & -> & ->). now exists m.
Qed.

Lemma outcome_insert_checked playlistId R c tail m x after :
  track_outcome playlistId R c tail ->
  tail = m ++ x :: after ->
  is_insert x = true ->
  exists rid resp,
    x = youtube (playlistItems_insert playlistId rid) resp
    /\ youtube (playlistItems_list playlistId (videoId rid) 50)
         (PlaylistItemListResponse []) ∈ m.
Proof.
  intros Ho E Hx.
  assert (forall post, Forall (fun e => is_console e = true) post ->
                       x ∈ post -> False) as Hpost.
  { intros post Hp Hin. rewrite Forall_forall in Hp.
    apply Hp in Hin. destruct x as [| | | | | |[]| |]; discriminate. }
  destruct Ho as [e| |top rest Hid|top rest rid Hid
                  |top rest rid items c post Hid Hne Hp _
                  |top rest rid resp post Hid Hp].
  - now destruct m.
  - now destruct m.
  - now destruct m.
  - destruct m as [|? [|? [|? m]]]; cbn in E; simplify_eq; cbn in Hx; discriminate Hx.
  - destruct m as [|? [|? m]]; cbn in E; simplify_eq; cbn in Hx; try discriminate Hx.
    exfalso. eapply Hpost; [eassumption|]. set_solver.
  - destruct m as [|? [|? [|? m]]]; cbn in E; simplify_eq; cbn in Hx; try discriminate Hx.
    + eexists _, _. split; [reflexivity|]. set_solver.
    + exfalso. eapply Hpost; [eassumption|]. set_solver.
Qed.

Lemma addTrack_head (data : TrackData) (playlistId : option string)
    (query : string) (w : World) :
  Forall (fun e => ~ (is_insert e = true \/ is_check e = true))
    (call_addTrack data playlistId
     :: console_log ("Adding track " +:+ subst (Track_Name data) +:+ " to playlist")
     :: events (getYoutubeTrackData data query w)).
Proof.
  do 2 (apply Forall_cons; split; [intros [|]; discriminate|]).
  eapply Forall_impl; [apply resolve_events|].
  intros [| | | | | |[]| |] He [|]; discriminate.
Qed.

(** C2 (duplicate avoidance).  In the events of one call of [addTrack]:
    whatever precedes an insert request for a playlist and a video contains
    the membership check for that playlist and that video, answered with no
    items; and if a membership check was answered with items, no insert
    request was sent at all. *)
Theorem addTrack_checks_before_insert
    (data : TrackData) (playlistId : option string) (w : World) :
  let evs := events (addTrack data playlistId w) in
  (forall before p rid resp after,
     evs = before ++ youtube (playlistItems_insert p rid) resp :: after ->
     youtube (playlistItems_list p (videoId rid) 50)
       (PlaylistItemListResponse []) ∈ before)
  /\
  (forall p v n items,
     youtube (playlistItems_list p v n) (PlaylistItemListResponse items) ∈ evs ->
     items <> [] ->
     forall e, e ∈ evs -> is_insert e = false).
Proof.
  intros evs. subst evs.
  destruct (addTrack_cases data playlistId w) as (tail & -> & Ho).
  set (query := subst (Artist_Names data) +:+ " " +:+ subst (Track_Name data)) in *.
  pose proof (addTrack_head data playlistId query w) as Hh.
  split.
  - intros before p rid resp after E.
    rewrite !app_comm_cons in E.
    eapply (split_after (fun e => is_insert e = true \/ is_check e = true)) in E
      as (m & -> & E); [|exact Hh|now left].
    destruct (outcome_insert_checked _ _ _ _ _ _ _ Ho E eq_refl)
      as (rid' & resp' & Hx & Hin).
    injection Hx as -> -> ->. set_solver.
  - intros p v n items Hin Hne e He.
    rewrite !app_comm_cons in Hin, He.
    rewrite Forall_forall in Hh.
    apply elem_of_app in Hin as [Hin|Hin].
    { apply Hh in Hin. exfalso. apply Hin. now right. }
    apply elem_of_app in He as [He|He].
    { apply Hh in He. destruct (is_insert e); [|reflexivity].
      exfalso. apply He. now left. }
    assert (forall post x, Forall (fun e => is_console e = true) post ->
              x ∈ post -> is_insert x = false /\ is_check x = false) as Hpost.
    { intros post x Hp Hx. rewrite Forall_forall in Hp. apply Hp in Hx.
      destruct x as [| | | | | |[]| |]; try discriminate; now split. }
    destruct Ho; set_unfold in Hin; set_unfold in He.
    + contradiction.
    + contradiction.
    + contradiction.
    + destruct Hin as [|[|]]; try discriminate; try contradiction.
    + destruct He as [->|[->|He]]; try reflexivity.
      eapply Hpost; eassumption.
    + destruct Hin as [Hin|[Hin|[Hin|Hin]]]; try discriminate.
      * injection Hin as -> -> -> ->. contradiction.
      * eapply Hpost in Hin; [|eassumption]. destruct Hin; discriminate.
Qed.

(** C10 (unguarded top candidate).  The resolver returns the empty
    sequence when the cache holds the serialised empty array for the key,
    and when the cache has nothing and the search answers with no items;
    and whenever the resolver returns a sequence, [addTrack] ends in the
    [TypeError] of reading [id] of [undefined] exactly when that sequence
    is empty. *)
Theorem addTrack_reads_top_candidate_unguarded
    (data : TrackData) (playlistId : option string) (w : World) :
  let query := subst (Artist_Names data) +:+ " " +:+ subst (Track_Name data) in
  let key := createRedisKey data in
  let R := getYoutubeTrackData data query w in
  (forall e, redis w !! key = Some e -> value e = JSON_stringify [] ->
     completion R = Normal [])
  /\ (truthy (value <$> redis w !! key) = false ->
      faults (service w) (search_list query 1) = false ->
      catalogue (service w) query = ArrayOf [] ->
      completion R = Normal [])
  /\ (forall items, completion R = Normal items ->
        (completion (addTrack data playlistId w) = Throw (reading "id")
         <-> items = [])).
Proof.
  intros query key R. split; [|split].
  - intros e He Hv. subst R. now rewrite (resolve_hit w data query e []).
  - intros Ht Hf Hc. subst R. now rewrite (resolve_fresh data query w []).
  - intros items HR.
    destruct (addTrack_cases data playlistId w) as (tail & _ & Ho).
    fold query in Ho. fold R in Ho. rewrite HR in Ho.
    remember (completion (addTrack data playlistId w)) as c eqn:Ec.
    clear Ec.
    inversion Ho as [| | | | ? ? ? ? ? ? ? ? ? Hc |]; subst;
      try (split; discriminate).
    + split; reflexivity.
    + destruct Hc as [->| ->]; split; discriminate.
Qed.

Lemma addTrack_uses_playlist (data : TrackData) (playlistId : option string)
    (w : World) :
  Forall (fun e => is_create e = false /\ uses_playlist playlistId e)
    (events (addTrack data playlistId w)).
Proof.
  destruct (addTrack_cases data playlistId w) as (tail & -> & Ho).
  assert (forall post, Forall (fun e => is_console e = true) post ->
            Forall (fun e => is_create e = false /\ uses_playlist playlistId e) post)
    as Hpost.
  { intros post Hp. eapply Forall_impl; [exact Hp|].
    intros [| | | | | |[]| |]; try discriminate; now split. }
  do 2 (apply Forall_cons; split; [now split|]).
  apply Forall_app. split.
  - eapply Forall_impl; [apply resolve_events|].
    intros [| | | | | |[]| |]; try discriminate; now split.
  - destruct Ho; repeat (apply Forall_cons; split; [now split|]);
      auto using Forall_nil.
Qed.

(** ** The playlist locator *)

Lemma scan_first (items : list Playlist) (title : string) :
  (exists before pl after,
     items = before ++ pl :: after
     /\ pl_title pl = title
     /\ (forall q, q ∈ before -> pl_title q <> title)
     /\ scan items title = {| exists_ := true; id := pl_id pl |})
  \/
  ((forall q, q ∈ items -> pl_title q <> title)
   /\ scan items title = {| exists_ := false; id := None |}).
Proof.
  induction items as [|pl items IH]; cbn [scan].
  - right. split; [|reflexivity]. intros q Hq. now apply elem_of_nil in Hq.
  - destruct (String.eqb_spec (pl_title pl) title) as [E|E].
    + left. exists [], pl, items. repeat split; try assumption.
      intros q Hq. now apply elem_of_nil in Hq.
    + destruct IH as [(before & pl' & after & -> & Ht & Hb & Hs)|[Hn Hs]].
      * left. exists (pl :: before), pl', after. repeat split; try assumption.
        intros q [->|Hq]%elem_of_cons; auto.
      * right. split; [|assumption].
        intros q [->|Hq]%elem_of_cons; auto.
Qed.

Lemma locate_cases (title : string) (w : World) :
  let request := playlists_list 20 true in
  playlistAlreadyExists title w =
  if faults (service w) request
  then {| completion := Throw (GaxiosError request); world := w;
          events := [youtube request Rejected] |}
  else {| completion := Normal (scan (take 20 (playlists (service w))) title);
          world := w;
          events := [youtube request
                       (PlaylistListResponse (take 20 (playlists (service w))))] |}.
Proof.
  intros request. unfold playlistAlreadyExists. fold request.
  rewrite step_call. unfold serve. subst request.
  destruct (faults (service w) _); cbn [fst snd]; rewrite set_service_same.
  - reflexivity.
  - autorewrite with run. reflexivity.
Qed.

(** C8 (playlist locator).  When the listing is not rejected, the locator
    sends one request, for at most 20 of the account's own playlists, and
    scans the page it gets: it returns [exists] with the identifier of the
    first playlist of the page whose title equals [title] character for
    character, or [{exists: false, id: null}] when the page has none. *)
Theorem playlistAlreadyExists_first_match (title : string) (w : World) :
  let r := playlistAlreadyExists title w in
  let page := take 20 (playlists (service w)) in
  faults (service w) (playlists_list 20 true) = false ->
  events r = [youtube (playlists_list 20 true) (PlaylistListResponse page)]
  /\ length page <= 20
  /\ ((exists before pl after,
         page = before ++ pl :: after
         /\ pl_title pl = title
         /\ (forall q, q ∈ before -> pl_title q <> title)
         /\ completion r = Normal {| exists_ := true; id := pl_id pl |})
      \/
      ((forall q, q ∈ page -> pl_title q <> title)
       /\ completion r = Normal {| exists_ := false; id := None |})).
Proof.
  intros r page Hok. subst r. rewrite locate_cases, Hok.
  cbn [events completion]. fold page.
  split; [reflexivity|]. split.
  { subst page. rewrite length_take. lia. }
  destruct (scan_first page title)
    as [(before & pl & after & Hp & Ht & Hb & Hs)|[Hn Hs]].
  - left. exists before, pl, after. now rewrite Hs.
  - right. now rewrite Hs.
Qed.

(** ** One pass of the orchestrator *)

Lemma getCsvFile_cases (answer : string) (w : World) :
  let prompt := inquirer_prompt ((fst <$> playlists_dir w) ++ ["exit"]) answer in
  getCsvFile answer w =
  if String.eqb answer "exit"
  then {| completion := ProcessExit; world := w; events := [prompt] |}
  else
    match assoc answer (playlists_dir w) with
    | Some rows =>
        {| completion := Normal (rows, display_name answer); world := w;
           events := [prompt; console_info ("Answer: " +:+ answer);
                      console_log ("Parsing file: " +:+ answer)] |}
    | None =>
        {| completion := Throw (ENOENT answer); world := w;
           events := [prompt; console_info ("Answer: " +:+ answer);
                      console_log ("Parsing file: " +:+ answer);
                      console_error "Error parsing csv file"] |}
    end.
Proof.
  intros prompt. unfold getCsvFile, try_catch. rewrite step_emit.
  destruct (String.eqb answer "exit"); [reflexivity|].
  rewrite step_emit, step_emit.
  destruct (assoc answer (playlists_dir w)); reflexivity.
Qed.

Lemma for_of_Forall {A} (P : Event -> Prop) (body : A -> M unit)
    (rows : list A) :
  (forall x w, Forall P (events (body x w))) ->
  forall w, Forall P (events (for_of rows body w)).
Proof.
  intros Hb. induction rows as [|x rows IH]; intros w; cbn [for_of].
  - constructor.
  - rewrite step_bind. specialize (Hb x w).
    destruct (completion (body x w)); cbn [events prepend]; try assumption.
    apply Forall_app. split; [assumption | apply IH].
Qed.

Lemma resolvedId_of_cases (located : Located) (filename : string) (w : World) :
  exists i w' evs,
    resolvedId_of located filename w =
    {| completion := Normal i; world := w'; events := evs |}
    /\ Forall (fun e => is_create e || is_console e = true) evs.
Proof.
  unfold resolvedId_of. destruct (exists_ located).
  { eexists _, _, _. split; [reflexivity | constructor]. }
  unfold try_catch. rewrite step_call.
  destruct (fst (serve (playlists_insert filename) (service w)));
    cbn; eexists _, _, _; (split; [reflexivity|]); repeat constructor.
Qed.

(** C9 (playlist reuse).  In a pass where the locator returns an existing
    playlist with identifier [i] for the file's title, no request creates a
    playlist, and every call of [addTrack], every membership check and every
    insert request names [i]. *)
Theorem addPlaylist_reuses_playlist
    (answer : string) (w : World) (i : option string) :
  completion (playlistAlreadyExists (display_name answer) w)
    = Normal {| exists_ := true; id := i |} ->
  Forall (fun e => is_create e = false /\ uses_playlist i e)
    (events (addPlaylist_pass answer w)).
Proof.
  intros Hfound. unfold addPlaylist_pass.
  rewrite step_bind, getCsvFile_cases.
  destruct (String.eqb answer "exit"); cbn [completion events world].
  { now repeat constructor. }
  destruct (assoc answer (playlists_dir w)) as [rows|]; cbn [completion events world].
  2:{ now repeat constructor. }
  cbn [prepend events]. do 3 (apply Forall_cons; split; [now split|]).
  rewrite step_bind. rewrite locate_cases in Hfound |- *.
  destruct (faults (service w) (playlists_list 20 true)); [discriminate|].
  cbn [completion events world] in Hfound |- *. injection Hfound as ->.
  unfold resolvedId_of. cbn [exists_ id prepend events app]. rewrite step_ret.
  apply Forall_cons. split; [now split|].
  apply for_of_Forall. intros [track|] w'; cbn [loop_body].
  - apply addTrack_uses_playlist.
  - constructor.
Qed.

Lemma attempts_app (e1 e2 : list Event) :
  attempts (e1 ++ e2) = attempts e1 ++ attempts e2.
Proof. apply omap_app. Qed.

Lemma attempts_none (evs : list Event) :
  Forall (fun e => forall d p, e <> call_addTrack d p) evs -> attempts evs = [].
Proof.
  induction 1 as [|e evs He _ IH]; [reflexivity|].
  unfold attempts in *. cbn [omap list_omap].
  destruct e; try exact IH. now specialize (He data playlistId).
Qed.

Lemma addTrack_attempts (data : TrackData) (playlistId : option string)
    (w : World) :
  attempts (events (addTrack data playlistId w)) = [data].
Proof.
  destruct (addTrack_cases data playlistId w) as (tail & -> & Ho).
  change (call_addTrack data playlistId :: ?l)
    with ([call_addTrack data playlistId] ++ l).
  rewrite attempts_app. cbn [attempts omap list_omap app]. f_equal.
  change (console_log ?m :: ?l) with ([console_log m] ++ l).
  rewrite !attempts_app. cbn [attempts omap list_omap app].
  fold (attempts tail).
  fold (attempts (events (getYoutubeTrackData data
          (subst (Artist_Names data) +:+ " " +:+ subst (Track_Name data)) w))).
  rewrite (attempts_none (events _)), (attempts_none tail); [reflexivity| |].
  - assert (forall post, Forall (fun e => is_console e = true) post ->
              Forall (fun e => forall d p, e <> call_addTrack d p) post) as Hpost.
    { intros post Hp. eapply Forall_impl; [exact Hp|].
      intros [] ?; discriminate. }
    destruct Ho; repeat (apply Forall_cons; split; [discriminate|]);
      auto using Forall_nil.
  - eapply Forall_impl; [apply resolve_events|].
    intros [] ?; discriminate.
Qed.

Lemma loop_attempts (resolvedId : option string)
    (rows : list (option TrackData)) (w : World) :
  let r := for_of rows (loop_body resolvedId) w in
  attempts (events r) `prefix_of` records rows
  /\ (completion r = Normal tt -> attempts (events r) = records rows).
Proof.
  revert w. induction rows as [|[track|] rows IH]; intros w; cbn [for_of].
  - split; [apply prefix_nil | reflexivity].
  - rewrite step_bind. cbn [loop_body records omap list_omap].
    fold (records rows).
    pose proof (addTrack_attempts track resolvedId w) as Ha.
    destruct (completion (addTrack track resolvedId w)) eqn:Hc;
      cbn [completion events prepend]; rewrite ?attempts_app, Ha;
      try (split; [apply (prefix_cons track), prefix_nil | discriminate]).
    destruct (IH (world (addTrack track resolvedId w))) as [Hp He].
    split; [now apply (prefix_cons track)|].
    intros Hn. cbn [app]. f_equal. now apply He.
  - cbn [loop_body]. rewrite step_ret. apply IH.
Qed.

Lemma pass_attempts (answer : string) (w : World)
    (rows : list (option TrackData)) :
  assoc answer (playlists_dir w) = Some rows ->
  let r := addPlaylist_pass answer w in
  attempts (events r) `prefix_of` records rows
  /\ (completion r = Normal tt -> attempts (events r) = records rows).
Proof.
  intros Hrows r. subst r. unfold addPlaylist_pass.
  rewrite step_bind, getCsvFile_cases, Hrows.
  destruct (String.eqb answer "exit"); cbn [completion events world].
  { split; [apply prefix_nil | discriminate]. }
  rewrite step_bind, locate_cases.
  destruct (faults (service w) (playlists_list 20 true));
    cbn [completion events world prepend app].
  { split; [apply prefix_nil | discriminate]. }
  rewrite step_bind.
  destruct (resolvedId_of_cases
              (scan (take 20 (playlists (service w))) (display_name answer))
              (display_name answer) w) as (i & w' & evs & -> & Hevs).
  cbn [completion events world prepend].
  do 4 match goal with
       | |- context [attempts (?e :: ?l)] =>
           change (attempts (e :: l)) with (attempts l)
       end.
  rewrite attempts_app, (attempts_none evs), app_nil_l.
  - apply loop_attempts.
  - eapply Forall_impl; [exact Hevs|].
    intros [] ? ? ?; discriminate.
Qed.

(** The loop stops at the first record for which [addTrack] throws: no
    later record is attempted. *)
Lemma loop_stops_at_throw (resolvedId : option string) (track : TrackData)
    (rows : list (option TrackData)) (w : World) (e : JsError) :
  completion (addTrack track resolvedId w) = Throw e ->
  for_of (Some track :: rows) (loop_body resolvedId) w =
  {| completion := Throw e;
     world := world (addTrack track resolvedId w);
     events := events (addTrack track resolvedId w) |}.
Proof.
  intros Ht. cbn [for_of loop_body]. rewrite step_bind. now rewrite Ht.
Qed.

(** ** The orchestrator calls itself *)

(** The program never returns: it ends at [process.exit()], with an
    uncaught error, or waiting at the prompt. *)
Lemma addPlaylist_never_returns (answers : list string) (w : World) :
  completion (addPlaylist answers w) <> Normal tt.
Proof.
  revert w. induction answers as [|answer later IH]; intros w; cbn [addPlaylist].
  - discriminate.
  - rewrite step_bind.
    destruct (completion (addPlaylist_pass answer w)); try discriminate.
    cbn [prepend completion]. apply IH.
Qed.

(** C3, amended.  One invocation of [addPlaylist] calls [addTrack] on the
    records of the chosen file in their order, each at most once, and on
    each exactly once when the pass completes; a completed pass is followed
    by [addPlaylist] again, on the operator's next answer; and the program
    never returns of its own accord. *)
Theorem addPlaylist_one_pass_then_again
    (answer : string) (later : list string) (w : World)
    (rows : list (option TrackData)) :
  assoc answer (playlists_dir w) = Some rows ->
  let pass := addPlaylist_pass answer w in
  attempts (events pass) `prefix_of` records rows
  /\ (completion pass = Normal tt ->
      attempts (events pass) = records rows
      /\ addPlaylist (answer :: later) w
         = prepend (events pass) (addPlaylist later (world pass)))
  /\ completion (addPlaylist (answer :: later) w) <> Normal tt.
Proof.
  intros Hrows pass.
  destruct (pass_attempts answer w rows Hrows) as [Hp He]. fold pass in Hp, He.
  split; [exact Hp|]. split; [|apply addPlaylist_never_returns].
  intros Hn. split; [now apply He|].
  cbn [addPlaylist]. rewrite step_bind. fold pass. now rewrite Hn.
Qed.

End Props.

(** * Further properties *)

(** ** The title of a playlist *)

(** A one-character text occurs in [s] when the character does. *)
Lemma includes_char_cons (c d : ascii) (s : string) :
  includes (String c EmptyString) (String d s)
  = Ascii.eqb c d || includes (String c EmptyString) s.
Proof.
  cbn [includes String.prefix].
  destruct (ascii_dec c d) as [->|Hne].
  - rewrite Ascii.eqb_refl. now destruct s.
  - apply Ascii.eqb_neq in Hne. now rewrite Hne.
Qed.

Lemma includes_char_append (c : ascii) (a b : string) :
  includes (String c EmptyString) (a +:+ b)
  = includes (String c EmptyString) a || includes (String c EmptyString) b.
Proof.
  induction a as [|d a IH].
  - rewrite append_nil_l. now destruct b.
  - rewrite append_cons, !includes_char_cons, IH. now rewrite orb_assoc.
Qed.

Lemma split_not_nil (sep : ascii) (s : string) : split sep s <> [].
Proof.
  induction s as [|c s IH]; cbn [split]; [discriminate|].
  destruct (Ascii.eqb c sep); [discriminate|].
  now destruct (split sep s).
Qed.







Lemma split_words_clean (sep : ascii) (s : string) :
  Forall (fun w => includes (String sep EmptyString) w = false) (split sep s).
Proof.
  induction s as [|c s IH]; cbn [split].
  - now repeat constructor.
  - destruct (Ascii.eqb c sep) eqn:Hc.
    + constructor; [reflexivity | exact IH].
    + pose proof (split_not_nil sep s).
      destruct (split sep s) as [|word words]; [contradiction|].
      apply Forall_cons in IH as [Hw Hws]. constructor; [|exact Hws].
      rewrite includes_char_cons, Hw, Ascii.eqb_sym, Hc. reflexivity.
Qed.

Lemma substring_clean (c : ascii) (s : string) (n m : nat) :
  includes (String c EmptyString) s = false ->
  includes (String c EmptyString) (String.substring n m s) = false.
Proof.
  revert n m. induction s as [|d s IH]; intros n m Hs.
  - now destruct n, m.
  - rewrite includes_char_cons in Hs. apply orb_false_elim in Hs as [Hd Hs].
    destruct n as [|n]; [destruct m as [|m]|]; cbn [String.substring].
    + reflexivity.
    + now rewrite includes_char_cons, Hd, IH.
    + now apply IH.
Qed.

Lemma toUpperCase_not_underscore (c : ascii) :
  Ascii.eqb "_" c = false -> Ascii.eqb "_" (toUpperCase c) = false.
Proof. destruct c as [[] [] [] [] [] [] [] []]; intros H; exact H || reflexivity. Qed.

Lemma title_word_clean (word : string) :
  includes "_" word = false -> includes "_" (title_word word) = false.
Proof.
  intros Hw. unfold title_word.
  assert (forall w, includes "_" w = false ->
                    includes "_" (capitalise w) = false) as Hcap.
  { intros [|c w] Hc; [reflexivity|]. cbn [capitalise].
    rewrite includes_char_cons in Hc |- *.
    apply orb_false_elim in Hc as [Hc Hrest].
    now rewrite toUpperCase_not_underscore, Hrest. }
  destruct (includes ".csv" word).
  - apply (Hcap (String.substring 0 (String.length word - 4) word)).
    now apply substring_clean.
  - now apply (Hcap word).
Qed.

(** X2.  The title never has an underscore, whatever the file is called:
    every underscore of the file name has become a space. *)
Theorem display_name_has_no_underscore (file : string) :
  includes "_" (display_name file) = false.
Proof.
  unfold display_name, join_words.
  pose proof (split_words_clean "_" file) as Hs.
  induction Hs as [|w ws Hw _ IH]; [reflexivity|].
  cbn [fmap list_fmap]. destruct ws as [|v ws].
  - cbn [fmap list_fmap String.concat]. now apply title_word_clean.
  - change (String.concat " " (title_word w :: (title_word <$> v :: ws)))
      with (title_word w +:+ " "
              +:+ String.concat " " (title_word <$> v :: ws)).
    rewrite !includes_char_append, IH, title_word_clean by assumption.
    reflexivity.
Qed.





Section More.

Context {J : JSON}.

(** ** The choice [exit] *)

Lemma pass_exit (w : World) :
  addPlaylist_pass "exit" w =
  {| completion := ProcessExit; world := w;
     events := [inquirer_prompt ((fst <$> playlists_dir w) ++ ["exit"]) "exit"] |}.
Proof.
  unfold addPlaylist_pass. rewrite step_bind, getCsvFile_cases. reflexivity.
Qed.

(** X4.  The answer [exit] ends the run at the prompt: nothing is read,
    logged or requested, also when the directory has a file of that name;
    and the answers that would follow it play no part. *)
Theorem exit_ends_the_run (before later : list string) (w : World) :
  addPlaylist ("exit" :: later) w =
  {| completion := ProcessExit; world := w;
     events := [inquirer_prompt ((fst <$> playlists_dir w) ++ ["exit"]) "exit"] |}
  /\ addPlaylist (before ++ "exit" :: later) w
     = addPlaylist (before ++ ["exit"]) w.
Proof.
  assert (forall l, addPlaylist ("exit" :: l) w =
    {| completion := ProcessExit; world := w;
       events := [inquirer_prompt ((fst <$> playlists_dir w) ++ ["exit"]) "exit"] |})
    as Hexit.
  { intros l. cbn [addPlaylist]. rewrite step_bind, pass_exit. reflexivity. }
  split; [apply Hexit|].
  clear Hexit. revert w. induction before as [|answer before IH]; intros w.
  - cbn [app addPlaylist]. rewrite !step_bind, pass_exit. reflexivity.
  - cbn [app addPlaylist]. rewrite !step_bind.
    destruct (completion (addPlaylist_pass answer w)); try reflexivity.
    now rewrite IH.
Qed.

(** ** The resolver and the cache *)


Lemma requests_app (e1 e2 : list Event) :
  requests (e1 ++ e2) = requests e1 ++ requests e2.
Proof. apply filter_app. Qed.

(** X6.  The cache is asked first and decides alone: with a truthy entry
    under the record's key the resolver sends no request, whether or not
    the entry can be used; without one it sends exactly one request, the
    search for the query with [maxResults] 1. *)
Theorem getYoutubeTrackData_requests
    (data : TrackData) (query : string) (w : World) :
  let r := getYoutubeTrackData data query w in
  let cached := value <$> redis w !! createRedisKey data in
  (exists rest, events r = redis_get (createRedisKey data) cached :: rest)
  /\ (truthy cached = true -> requests (events r) = [])
  /\ (truthy cached = false ->
      exists response,
        requests (events r) = [youtube (search_list query 1) response]).
Proof.
  intros r cached. subst r. unfold getYoutubeTrackData.
  rewrite step_get. fold cached. split; [eexists; reflexivity|].
  split; intros Ht; rewrite Ht.
  - rewrite bind_assoc, step_emit. unfold parse_json.
    destruct cached as [text|]; [|discriminate].
    destruct (JSON_parse text) as [[|items]|];
      autorewrite with run; reflexivity.
  - rewrite bind_assoc, step_emit, bind_assoc, step_call, serve_search.
    cbn [fst snd]. rewrite set_service_same.
    destruct (faults (service w) (search_list query 1)).
    + eexists. reflexivity.
    + destruct (truncate 1 (catalogue (service w) query));
        autorewrite with run; eexists; reflexivity.
Qed.

(** X7.  A truthy entry that cannot be used is not replaced: when the text
    under the key is not JSON, or is JSON for something that is not an
    array, the resolver throws (a [SyntaxError], or the error that carries
    the query) without a search and leaves the store as it is, so the
    entry stays until it expires. *)
Theorem unusable_entry_is_kept
    (data : TrackData) (query : string) (w : World) (e : CacheEntry) :
  let r := getYoutubeTrackData data query w in
  redis w !! createRedisKey data = Some e ->
  truthy (Some (value e)) = true ->
  JSON_parse (value e) = None \/ JSON_parse (value e) = Some NonArray ->
  (JSON_parse (value e) = None ->
     exists message, completion r = Throw (SyntaxError message))
  /\ (JSON_parse (value e) = Some NonArray ->
      completion r
      = Throw (Error ("No items were returned for query: " +:+ query)))
  /\ requests (events r) = []
  /\ world r = w.
Proof.
  intros r He Ht Hp. subst r. unfold getYoutubeTrackData.
  rewrite step_get, He. cbn [fmap option_fmap option_map]. rewrite Ht.
  rewrite bind_assoc, step_emit. unfold parse_json.
  destruct Hp as [Hp|Hp]; rewrite Hp; autorewrite with run;
    repeat split; try discriminate; intros; eauto.
Qed.

(** X8.  Records whose keys coincide share one entry: once the first is
    resolved, the second gets the first's sequence for less than a day of
    steps, without a search and whatever its own query is. *)
Theorem colliding_records_share_entry
    (data1 data2 : TrackData) (query1 query2 : string) (w : World)
    (items : list SearchResult) (steps : list Step) :
  let first := getYoutubeTrackData data1 query1 w in
  let second :=
    getYoutubeTrackData data2 query2 (after_steps steps (world first)) in
  createRedisKey data1 = createRedisKey data2 ->
  completion first = Normal items ->
  (waited steps < 86400)%N ->
  completion second = Normal items /\ requests (events second) = [].
Proof.
  intros first second Hkey Hfirst Hlt.
  destruct (resolve_returns data1 query1 w items Hfirst) as [Hw _].
  fold first in Hw.
  destruct (after_keeps_entry (createRedisKey data1) items steps
              (world first) 86400%N) as [t' Hlive];
    [rewrite Hw; apply redis_stored | assumption | lia |].
  rewrite Hkey in Hlive.
  subst second. erewrite resolve_hit; [|exact Hlive|reflexivity].
  split; reflexivity.
Qed.



(** X10.  An empty result blocks its record: once the resolver has
    returned the empty sequence, every call of [addTrack] for the record
    within less than a day of steps ends in the [TypeError] of reading
    [id], sends no request, and gives the entry a full day again. *)
Theorem empty_entry_blocks_record
    (data : TrackData) (playlistId : option string) (w : World)
    (steps : list Step) :
  let query := subst (Artist_Names data) +:+ " " +:+ subst (Track_Name data) in
  let first := getYoutubeTrackData data query w in
  let again := addTrack data playlistId (after_steps steps (world first)) in
  completion first = Normal [] ->
  (waited steps < 86400)%N ->
  completion again = Throw (reading "id")
  /\ requests (events again) = []
  /\ redis (world again) !! createRedisKey data
     = Some {| value := JSON_stringify []; ttl := Some 86400%N |}.
Proof.
  intros query first again Hfirst Hlt.
  destruct (resolve_returns data query w [] Hfirst) as [Hw _].
  fold first in Hw.
  destruct (after_keeps_entry (createRedisKey data) [] steps
              (world first) 86400%N) as [t' Hlive];
    [rewrite Hw; apply redis_stored | assumption | lia |].
  subst again. unfold addTrack. fold query.
  rewrite step_emit, step_emit, step_bind.
  erewrite resolve_hit; [|exact Hlive|reflexivity].
  cbn [completion events world lookup list_lookup]. rewrite step_throw.
  cbn [prepend throw completion events world].
  repeat split. apply redis_stored.
Qed.

End More.

(** ** One record, further *)

Section Record.

Context {J : JSON}.

Lemma insert_exact (p : option string) (rid : ResourceId)
    (name : option string) (w : World) :
  let request := playlistItems_insert p rid in
  try_catch
    (call request;;
     emit (console_log ("Added track " +:+ subst name +:+ " to playlist")))
    (fun error => emit (console_error "Error adding track to playlist")) w
  = {| completion := Normal tt;
       world := set_service (snd (serve request (service w))) w;
       events := [youtube request (fst (serve request (service w)));
                  insert_report name (fst (serve request (service w)))] |}.
Proof.
  intros request. unfold try_catch. rewrite step_call.
  destruct (fst (serve request (service w))); reflexivity.
Qed.

Lemma resolver_events_no_insert (evs : list Event) :
  Forall (fun e => resolver_event e = true) evs ->
  Forall (fun e => is_insert e = false) evs.
Proof.
  intros H. eapply Forall_impl; [exact H|].
  intros [| | | | | |[]| |]; now try discriminate.
Qed.

(** [addTrack] either sends no insert request, or the resolver returned a
    sequence with a top candidate, the check found nothing, and the call
    completes with the insert request and its report as its last two
    events. *)
Lemma addTrack_insert_last (data : TrackData) (playlistId : option string)
    (w : World) :
  let query := subst (Artist_Names data) +:+ " " +:+ subst (Track_Name data) in
  let R := getYoutubeTrackData data query w in
  let r := addTrack data playlistId w in
  Forall (fun e => is_insert e = false) (events r)
  \/ exists top rest rid,
       completion R = Normal (top :: rest)
       /\ sr_id top = Some rid
       /\ Forall (fun e => is_insert e = false) (events R)
       /\ let request := playlistItems_insert playlistId rid in
          let response := fst (serve request (service (world R))) in
          r = {| completion := Normal tt;
                 world := set_service (snd (serve request (service (world R))))
                            (world R);
                 events :=
                   [call_addTrack data playlistId;
                    console_log ("Adding track " +:+ subst (Track_Name data)
                                 +:+ " to playlist")]
                   ++ events R
                   ++ [checking;
                       youtube (playlistItems_list playlistId (videoId rid) 50)
                         (PlaylistItemListResponse [])]
                   ++ [youtube request response;
                       insert_report (Track_Name data) response] |}.
Proof.
  intros query R r. subst r R. unfold addTrack. fold query.
  rewrite step_emit, step_emit, step_bind.
  destruct (resolve_cases data query w)
    as [(items & pre & -> & Hpre)|(e & pre & -> & Hpre)];
    apply resolver_events_no_insert in Hpre;
    cbn [completion events world].
  2:{ left. cbn [prepend events]. now repeat constructor. }
  assert (Forall (fun e => is_insert e = false)
            (pre ++ [redis_set (createRedisKey data) (JSON_stringify items);
                     redis_expire (createRedisKey data) 86400])) as Hres.
  { apply Forall_app. split; [exact Hpre | now repeat constructor]. }
  destruct items as [|top rest]; cbn [lookup list_lookup].
  { left. rewrite step_throw. cbn [prepend events throw].
    rewrite app_nil_r. now repeat constructor. }
  rewrite step_ret.
  destruct (sr_id top) as [rid|] eqn:Hid.
  2:{ left. rewrite step_throw. cbn [prepend events throw].
      rewrite app_nil_r. now repeat constructor. }
  rewrite step_ret, step_bind.
  destruct (check_cases (videoId rid) playlistId
              (stored (createRedisKey data) (top :: rest) w)) as [Hc|[its Hc]];
    rewrite Hc; cbn [completion events world].
  { left. cbn [prepend events app]. do 2 (constructor; [reflexivity|]).
    apply Forall_app. split; [exact Hres | now repeat constructor]. }
  destruct its as [|it its]; cbn [length Nat.eqb negb].
  - right. rewrite insert_exact. exists top, rest, rid.
    split; [reflexivity|]. split; [exact Hid|]. split; [exact Hres|].
    cbn [prepend events completion world app]. reflexivity.
  - left. destruct (sr_snippet top); cbn [prepend events throw emit app];
      do 2 (constructor; [reflexivity|]);
      (apply Forall_app; split; [exact Hres | now repeat constructor]).
Qed.

(** X11.  A failed insert does not end the record in an error: whenever
    [addTrack] has sent an insert request it completes normally, and its
    last event reports on that request, on the error console when the
    request was rejected and with the [Added track] line otherwise. *)
Theorem failed_insert_is_logged
    (data : TrackData) (playlistId : option string) (w : World)
    (p : option string) (rid : ResourceId) (response : Response) :
  let r := addTrack data playlistId w in
  youtube (playlistItems_insert p rid) response ∈ events r ->
  completion r = Normal tt
  /\ exists before,
       events r = before ++ [youtube (playlistItems_insert p rid) response;
                             insert_report (Track_Name data) response].
Proof.
  intros r Hin.
  destruct (addTrack_insert_last data playlistId w)
    as [Hno|(top & rest & rid' & _ & _ & HR & Hr)]; fold r in Hno || fold r in Hr.
  - rewrite Forall_forall in Hno. apply Hno in Hin. discriminate.
  - cbv zeta in Hr. rewrite Hr in Hin |- *. cbn [completion events] in Hin |- *.
    split; [reflexivity|].
    rewrite Forall_forall in HR.
    apply elem_of_app in Hin as [Hin|Hin].
    { apply elem_of_cons in Hin as [Hin|Hin]; [discriminate|].
      apply list_elem_of_singleton in Hin. discriminate. }
    apply elem_of_app in Hin as [Hin|Hin].
    { apply HR in Hin. discriminate. }
    apply elem_of_app in Hin as [Hin|Hin].
    { apply elem_of_cons in Hin as [Hin|Hin]; [discriminate|].
      apply list_elem_of_singleton in Hin. discriminate. }
    apply elem_of_cons in Hin as [Hin|Hin].
    + injection Hin as -> -> ->. eexists. rewrite !app_assoc. reflexivity.
    + apply list_elem_of_singleton in Hin.
      destruct (fst (serve _ _)); discriminate.
Qed.

Lemma requests_cons (e : Event) (evs : list Event) :
  requests (e :: evs) = if is_request e then e :: requests evs else requests evs.
Proof.
  unfold requests. rewrite filter_cons. now destruct (is_request e).
Qed.

Lemma requests_nil : requests [] = [].
Proof. reflexivity. Qed.

Lemma events_ret {A} (a : A) (w : World) :
  events ((mret a : M A) w) = [].
Proof. reflexivity. Qed.

Lemma requests_console (post : list Event) (query : string)
    (p : option string) :
  Forall (fun e => is_console e = true) post ->
  Forall (track_event query p) post /\ requests post = [].
Proof.
  induction 1 as [|e post He _ [IH1 IH2]]; [now split|].
  rewrite requests_cons.
  destruct e; try discriminate; (split; [now constructor | exact IH2]).
Qed.

(** The resolver's events for the record's query: at most one request, the
    search, and none on a truthy entry. *)
Lemma resolve_trace (data : TrackData) (query : string) (w : World)
    (p : option string) :
  let r := getYoutubeTrackData data query w in
  Forall (track_event query p) (events r)
  /\ length (requests (events r)) <= 1
  /\ (truthy (value <$> redis w !! createRedisKey data) = true ->
      requests (events r) = []).
Proof.
  intros r. subst r. unfold getYoutubeTrackData. rewrite step_get.
  destruct (truthy (value <$> redis w !! createRedisKey data)) eqn:Ht.
  - rewrite bind_assoc, step_emit. unfold parse_json.
    destruct (value <$> redis w !! createRedisKey data) as [text|];
      [|discriminate].
    destruct (JSON_parse text) as [[|items]|];
      do 2 (autorewrite with run; cbn [negb isArray elements_of]); unfold throw;
      cbn [prepend events app]; rewrite ?events_ret;
      rewrite ?requests_cons, ?requests_nil; cbn [is_request length];
      (split; [now repeat constructor|]); (split; [lia | reflexivity]).
  - rewrite bind_assoc, step_emit, bind_assoc, step_call, serve_search.
    cbn [fst snd]. rewrite set_service_same.
    destruct (faults (service w) (search_list query 1)).
    + cbn [prepend events app].
      rewrite ?requests_cons, ?requests_nil; cbn [is_request length].
      split; [now repeat constructor|]. split; [lia | discriminate].
    + destruct (truncate 1 (catalogue (service w) query));
        do 2 (autorewrite with run; cbn [negb isArray elements_of]); unfold throw;
        cbn [prepend events app]; rewrite ?events_ret;
        rewrite ?requests_cons, ?requests_nil; cbn [is_request length];
        (split; [now repeat constructor|]); (split; [lia | discriminate]).
Qed.

(** X12.  A call of [addTrack] sends at most three requests, and at most
    two when the cache has a truthy entry for the record: a search for the
    record's query with [maxResults] 1, a membership check and an insert
    for the playlist it was given.  It lists no playlists, creates none and
    does not prompt. *)
Theorem addTrack_footprint
    (data : TrackData) (playlistId : option string) (w : World) :
  let query := subst (Artist_Names data) +:+ " " +:+ subst (Track_Name data) in
  let r := addTrack data playlistId w in
  Forall (track_event query playlistId) (events r)
  /\ length (requests (events r)) <= 3
  /\ (truthy (value <$> redis w !! createRedisKey data) = true ->
      length (requests (events r)) <= 2).
Proof.
  intros query r. subst r.
  destruct (addTrack_cases data playlistId w) as (tail & -> & Ho).
  fold query in Ho |- *.
  destruct (resolve_trace data query w playlistId) as (HR & Hlen & Hhit).
  assert (Forall (track_event query playlistId) tail
          /\ length (requests tail) <= 2) as [Ht Htl].
  { remember (completion (getYoutubeTrackData data query w)) as cR eqn:E1.
    remember (completion (addTrack data playlistId w)) as c eqn:E2.
    clear E1 E2 HR Hlen Hhit.
    destruct Ho as [e| |top rest Hid|top rest rid Hid
                    |top rest rid items c post Hid Hne Hp _
                    |top rest rid resp post Hid Hp];
      try (split; [now repeat constructor
                  | rewrite ?requests_cons, ?requests_nil; cbn; lia]);
      destruct (requests_console post query playlistId Hp) as [Hq Hn].
    - split; [now repeat constructor|].
      change (length (requests ([checking;
        youtube (playlistItems_list playlistId (videoId rid) 50)
          (PlaylistItemListResponse items)] ++ post)) <= 2).
      rewrite requests_app, Hn, !requests_cons, requests_nil. cbn. lia.
    - split; [now repeat constructor|].
      change (length (requests ([checking;
        youtube (playlistItems_list playlistId (videoId rid) 50)
          (PlaylistItemListResponse []);
        youtube (playlistItems_insert playlistId rid) resp] ++ post)) <= 2).
      rewrite requests_app, Hn, !requests_cons, requests_nil. cbn. lia. }
  split.
  { do 2 (constructor; [exact I|]). apply Forall_app. now split. }
  change (call_addTrack data playlistId
          :: console_log ("Adding track " +:+ subst (Track_Name data)
                          +:+ " to playlist")
          :: events (getYoutubeTrackData data query w) ++ tail)
    with ([call_addTrack data playlistId;
           console_log ("Adding track " +:+ subst (Track_Name data)
                          +:+ " to playlist")]
          ++ events (getYoutubeTrackData data query w) ++ tail).
  rewrite !requests_app, !length_app.
  change (length (requests [call_addTrack data playlistId;
            console_log ("Adding track " +:+ subst (Track_Name data)
                          +:+ " to playlist")])) with 0.
  split; [lia|]. intros Hc. rewrite (Hhit Hc). cbn [length]. lia.
Qed.

(** ** One pass, further *)


(** X14.  When the page of playlists has none with the file's title, the
    pass sends one creation request for that title, logs the identifier or
    the failure, and goes through the rows either way: with the new
    identifier, or with none when the creation failed. *)
Theorem pass_creates_when_absent
    (answer : string) (rows : list (option TrackData)) (w : World) :
  let title := display_name answer in
  let page := take 20 (playlists (service w)) in
  let request := playlists_insert title in
  let response := fst (serve request (service w)) in
  String.eqb answer "exit" = false ->
  assoc answer (playlists_dir w) = Some rows ->
  faults (service w) (playlists_list 20 true) = false ->
  (forall q, q ∈ page -> pl_title q <> title) ->
  addPlaylist_pass answer w =
  prepend [inquirer_prompt ((fst <$> playlists_dir w) ++ ["exit"]) answer;
           console_info ("Answer: " +:+ answer);
           console_log ("Parsing file: " +:+ answer);
           youtube (playlists_list 20 true) (PlaylistListResponse page);
           youtube request response;
           create_report title response]
    (for_of rows (loop_body (created_id response))
       (set_service (snd (serve request (service w))) w)).
Proof.
  intros title page request response Hexit Hrows Hlist Habsent.
  unfold addPlaylist_pass.
  rewrite step_bind, getCsvFile_cases, Hexit, Hrows.
  cbn [completion events world]. fold title.
  rewrite step_bind, locate_cases, Hlist.
  cbn [completion events world]. fold page.
  destruct (scan_first page title)
    as [(before & pl & after & Hp & Ht & _)|[_ ->]].
  { exfalso. apply (Habsent pl); [|exact Ht].
    rewrite Hp. apply elem_of_app. right. apply elem_of_cons. now left. }
  unfold resolvedId_of. cbn [exists_ id].
  rewrite step_bind. unfold try_catch. rewrite step_call.
  fold request. fold response.
  destruct response; cbn [completion events world prepend create_report
                          created_id emit mret M_ret];
    autorewrite with run; cbn [completion events world prepend app];
    rewrite ?prepend_prepend; reflexivity.
Qed.

(** X15.  A rejected listing of the playlists is not caught: the run ends
    there with the error of the request; no playlist is created, no record
    is attempted and no later answer is asked for. *)
Theorem rejected_listing_ends_the_run
    (answer : string) (later : list string)
    (rows : list (option TrackData)) (w : World) :
  String.eqb answer "exit" = false ->
  assoc answer (playlists_dir w) = Some rows ->
  faults (service w) (playlists_list 20 true) = true ->
  addPlaylist (answer :: later) w =
  {| completion := Throw (GaxiosError (playlists_list 20 true));
     world := w;
     events := [inquirer_prompt ((fst <$> playlists_dir w) ++ ["exit"]) answer;
                console_info ("Answer: " +:+ answer);
                console_log ("Parsing file: " +:+ answer);
                youtube (playlists_list 20 true) Rejected] |}.
Proof.
  intros Hexit Hrows Hlist. cbn [addPlaylist]. rewrite step_bind.
  unfold addPlaylist_pass.
  rewrite step_bind, getCsvFile_cases, Hexit, Hrows.
  cbn [completion events world].
  rewrite step_bind, locate_cases, Hlist. reflexivity.
Qed.

(** X16.  A file that cannot be read ends the run too: [getCsvFile] logs
    [Error parsing csv file] and throws the error again, [addPlaylist] does
    not catch it, and no request is sent. *)
Theorem unreadable_file_ends_the_run
    (answer : string) (later : list string) (w : World) :
  String.eqb answer "exit" = false ->
  assoc answer (playlists_dir w) = None ->
  addPlaylist (answer :: later) w =
  {| completion := Throw (ENOENT answer);
     world := w;
     events := [inquirer_prompt ((fst <$> playlists_dir w) ++ ["exit"]) answer;
                console_info ("Answer: " +:+ answer);
                console_log ("Parsing file: " +:+ answer);
                console_error "Error parsing csv file"] |}.
Proof.
  intros Hexit Hnone. cbn [addPlaylist]. rewrite step_bind.
  unfold addPlaylist_pass.
  rewrite step_bind, getCsvFile_cases, Hexit, Hnone. reflexivity.
Qed.

End Record.

(** ** The earlier program *)

Section EarlierProgram.

Context {J : JSON}.

Lemma resolver_events_plain (evs : list Event) :
  Forall (fun e => resolver_event e = true) evs ->
  Forall (fun e => search_or_insert e = true /\ is_check e = false) evs
  /\ attempts evs = [].
Proof.
  intros H. split.
  - eapply Forall_impl; [exact H|].
    intros [| | | | | |[]| |]; now try discriminate.
  - apply attempts_none. eapply Forall_impl; [exact H|].
    intros [] ? ? ?; discriminate.
Qed.

(** A call of the earlier [addTrack] for a record. *)
Lemma earlier_addTrack_cases (data : TrackData) (playlistId : option string)
    (w : World) :
  let query := subst (Artist_Names data) +:+ " " +:+ subst (Track_Name data) in
  let R := getYoutubeTrackData data query w in
  let r := Earlier.addTrack (Some data) playlistId w in
  let head :=
    [call_addTrack data playlistId;
     console_log ("Adding track " +:+ subst (Track_Name data)
                  +:+ " to playlist")] in
  match completion R with
  | Normal (top :: _) =>
      let request :=
        playlistItems_insert playlistId
          (default {| kind := None; videoId := None |} (sr_id top)) in
      let response := fst (serve request (service (world R))) in
      r = {| completion := Normal tt;
             world := set_service (snd (serve request (service (world R))))
                        (world R);
             events := head ++ events R
                       ++ [youtube request response;
                           insert_report (Track_Name data) response] |}
  | Normal [] =>
      r = {| completion := Throw (reading "id"); world := world R;
             events := head ++ events R |}
  | Throw e =>
      r = {| completion := Throw e; world := world R;
             events := head ++ events R |}
  | _ => False
  end.
Proof.
  intros query R r head. subst r R head. unfold Earlier.addTrack. fold query.
  rewrite step_emit, step_emit, step_bind.
  destruct (resolve_cases data query w)
    as [(items & pre & -> & _)|(e & pre & -> & _)];
    cbn [completion events world]; [|reflexivity].
  destruct items as [|top rest]; cbn [lookup list_lookup].
  - rewrite step_throw. unfold prepend, throw.
    cbn [events completion world app]. now rewrite app_nil_r.
  - rewrite step_ret, insert_exact. reflexivity.
Qed.

(** X17.  The earlier [addTrack] has no duplicate guard: whenever the
    resolver returns a sequence with a top candidate it sends the insert
    request for that candidate's [id], without a membership check, and
    completes whatever the answer is. *)
Theorem earlier_addTrack_inserts_unchecked
    (data : TrackData) (playlistId : option string) (w : World)
    (top : SearchResult) (rest : list SearchResult) :
  let query := subst (Artist_Names data) +:+ " " +:+ subst (Track_Name data) in
  let R := getYoutubeTrackData data query w in
  let r := Earlier.addTrack (Some data) playlistId w in
  let request :=
    playlistItems_insert playlistId
      (default {| kind := None; videoId := None |} (sr_id top)) in
  completion R = Normal (top :: rest) ->
  completion r = Normal tt
  /\ Forall (fun e => is_check e = false) (events r)
  /\ exists before response,
       events r = before ++ [youtube request response;
                             insert_report (Track_Name data) response]
       /\ Forall (fun e => is_insert e = false) before.
Proof.
  intros query R r request HR.
  pose proof (earlier_addTrack_cases data playlistId w) as Hr.
  cbv zeta in Hr. fold query in Hr. fold R in Hr. fold r in Hr.
  rewrite HR in Hr. fold request in Hr. rewrite Hr.
  cbn [completion events].
  pose proof (resolve_events data query w) as He. fold R in He.
  split; [reflexivity|]. split.
  - do 2 (constructor; [reflexivity|]). apply Forall_app. split.
    + now apply resolver_events_plain in He as [He%Forall_and _].
    + constructor; [reflexivity|].
      constructor; [|constructor].
      now destruct (fst (serve request (service (world R)))).
  - eexists _, _. rewrite app_assoc. split; [reflexivity|].
    do 2 (constructor; [reflexivity|]).
    now apply resolver_events_no_insert.
Qed.

(** X18.  The duplicate guard is the whole difference between the two
    versions of [addTrack] on a record that is inserted: the earlier one
    ends in the same world with the same completion, and its events are
    those of the later one without the membership check. *)
Theorem guard_is_the_difference
    (data : TrackData) (playlistId : option string) (w : World)
    (p : option string) (rid : ResourceId) (response : Response) :
  let later := addTrack data playlistId w in
  let earlier := Earlier.addTrack (Some data) playlistId w in
  youtube (playlistItems_insert p rid) response ∈ events later ->
  completion earlier = completion later
  /\ world earlier = world later
  /\ exists before after,
       events later
       = before
         ++ [checking;
             youtube (playlistItems_list playlistId (videoId rid) 50)
               (PlaylistItemListResponse [])]
         ++ after
       /\ events earlier = before ++ after.
Proof.
  intros later earlier Hin.
  destruct (addTrack_insert_last data playlistId w)
    as [Hno|(top & rest & rid' & HR & Hid & Hres & Hl)];
    fold later in Hno || fold later in Hl.
  { rewrite Forall_forall in Hno. apply Hno in Hin. discriminate. }
  cbv zeta in Hl.
  pose proof (earlier_addTrack_cases data playlistId w) as He.
  cbv zeta in He. fold earlier in He. rewrite HR, Hid in He.
  cbn [default] in He.
  assert (rid' = rid) as ->.
  { rewrite Hl in Hin. cbn [events] in Hin. rewrite Forall_forall in Hres.
    apply elem_of_app in Hin as [Hin|Hin].
    { apply elem_of_cons in Hin as [Hin|Hin]; [discriminate|].
      apply list_elem_of_singleton in Hin. discriminate. }
    apply elem_of_app in Hin as [Hin|Hin].
    { apply Hres in Hin. discriminate. }
    apply elem_of_app in Hin as [Hin|Hin].
    { apply elem_of_cons in Hin as [Hin|Hin]; [discriminate|].
      apply list_elem_of_singleton in Hin. discriminate. }
    apply elem_of_cons in Hin as [Hin|Hin]; [now injection Hin|].
    apply list_elem_of_singleton in Hin.
    destruct (fst (serve _ _)); discriminate. }
  change (Datatypes.id rid) with rid in He.
  rewrite Hl, He. cbn [completion world events].
  split; [reflexivity|]. split; [reflexivity|].
  set (R := getYoutubeTrackData data _ w).
  set (request := playlistItems_insert playlistId rid).
  exists ([call_addTrack data playlistId;
           console_log ("Adding track " +:+ subst (Track_Name data)
                        +:+ " to playlist")] ++ events R),
         [youtube request (fst (serve request (service (world R))));
          insert_report (Track_Name data)
            (fst (serve request (service (world R))))].
  rewrite <- !app_assoc. split; reflexivity.
Qed.

Lemma records_cons (track : option TrackData)
    (rows : list (option TrackData)) :
  records (track :: rows) = records [track] ++ records rows.
Proof. now destruct track. Qed.

(** A call of the earlier [addTrack] for a row: it completes or throws,
    counts as an attempt when the row is a record, and sends searches and
    inserts only. *)
Lemma earlier_row (track : option TrackData) (playlistId : option string)
    (w : World) :
  let r := Earlier.addTrack track playlistId w in
  (completion r = Normal tt \/ exists e, completion r = Throw e)
  /\ attempts (events r) = records [track]
  /\ Forall (fun e => search_or_insert e = true /\ is_check e = false)
       (events r).
Proof.
  intros r. subst r. destruct track as [data|].
  2:{ split; [right; eexists; reflexivity|]. split; [reflexivity|constructor]. }
  pose proof (earlier_addTrack_cases data playlistId w) as Hr.
  cbv zeta in Hr.
  set (R := getYoutubeTrackData data _ w) in Hr.
  destruct (resolver_events_plain (events R) (resolve_events data _ w))
    as [Hplain Hnone].
  destruct (completion R) as [[|top rest]|e| |]; try contradiction;
    rewrite Hr; cbn [completion events];
    rewrite !attempts_app, Hnone.
  - split; [right; eexists; reflexivity|]. split; [reflexivity|].
    apply Forall_app. split; [now repeat constructor | exact Hplain].
  - split; [now left|]. split.
    { now destruct (fst (serve _ _)). }
    apply Forall_app. split; [now repeat constructor|].
    apply Forall_app. split; [exact Hplain|].
    constructor; [now split|]. constructor; [|constructor].
    now destruct (fst (serve _ _)).
  - split; [right; eexists; reflexivity|]. split; [reflexivity|].
    apply Forall_app. split; [now repeat constructor | exact Hplain].
Qed.

(** The loop of the earlier [addPlaylist]. *)
Lemma earlier_loop (playlistId : option string)
    (rows : list (option TrackData)) (w : World) :
  let loop := for_of rows (fun track => Earlier.addTrack track playlistId) w in
  (completion loop = Normal tt \/ exists e, completion loop = Throw e)
  /\ attempts (events loop) `prefix_of` records rows
  /\ (completion loop = Normal tt -> attempts (events loop) = records rows)
  /\ Forall (fun e => search_or_insert e = true /\ is_check e = false)
       (events loop).
Proof.
  revert w. induction rows as [|track rows IH]; intros w; cbn [for_of].
  - split; [now left|]. split; [apply prefix_nil|]. split; [reflexivity|].
    constructor.
  - rewrite step_bind.
    destruct (earlier_row track playlistId w) as ([Hc|[e Hc]] & Ha & He);
      rewrite Hc; cbn [completion events prepend].
    + destruct (IH (world (Earlier.addTrack track playlistId w)))
        as (IHc & IHp & IHn & IHe).
      rewrite records_cons, attempts_app, Ha.
      split; [exact IHc|]. split; [now apply prefix_app|].
      split; [intros Hn; f_equal; now apply IHn|].
      apply Forall_app. now split.
    + split; [right; now exists e|].
      rewrite records_cons, Ha.
      split; [now apply prefix_app_r|]. split; [discriminate | exact He].
Qed.

(** One invocation of the earlier [addPlaylist] on a file of the
    directory. *)
Lemma earlier_addPlaylist_cases (answer : string)
    (rows : list (option TrackData)) (w : World) :
  let title := display_name answer in
  let request := playlists_insert title in
  let response := fst (serve request (service w)) in
  let w' := set_service (snd (serve request (service w))) w in
  let head :=
    [inquirer_prompt ((fst <$> playlists_dir w) ++ ["exit"]) answer;
     console_info ("Answer: " +:+ answer);
     console_log ("Parsing file: " +:+ answer);
     youtube request response;
     create_report title response] in
  String.eqb answer "exit" = false ->
  assoc answer (playlists_dir w) = Some rows ->
  Earlier.addPlaylist answer w =
  match response with
  | PlaylistResource i =>
      let loop :=
        for_of rows (fun track => Earlier.addTrack track (Some i)) w' in
      {| completion := Normal tt; world := world loop;
         events :=
           head ++ events loop
           ++ match completion loop with
              | Normal _ => []
              | _ => [console_error "Error inserting playlist"]
              end |}
  | _ => {| completion := Normal tt; world := w'; events := head |}
  end.
Proof.
  intros title request response w' head Hexit Hrows.
  unfold Earlier.addPlaylist.
  rewrite step_bind, getCsvFile_cases, Hexit, Hrows.
  cbn [completion events world]. fold title.
  unfold try_catch. rewrite step_call. fold request response w'.
  subst head. destruct response as [| | |i| |];
    cbn [create_report]; try reflexivity.
  rewrite step_ret, step_emit.
  destruct (earlier_loop (Some i) rows w') as ([Hc|[e Hc]] & _).
  - unfold prepend. cbn [completion events world]. rewrite Hc.
    cbn [completion events world app]. now rewrite app_nil_r.
  - unfold prepend. cbn [completion events world]. rewrite Hc.
    unfold emit. cbn [completion events world app]. reflexivity.
Qed.

(** X19.  Once the file is read, the earlier [addPlaylist] completes
    whatever happens.  It sends one creation request for the file's title
    without looking for a playlist of that title, and after it only
    searches and inserts; when the creation fails nothing else is done. *)
Theorem earlier_addPlaylist_always_creates
    (answer : string) (rows : list (option TrackData)) (w : World) :
  let r := Earlier.addPlaylist answer w in
  let title := display_name answer in
  let request := playlists_insert title in
  String.eqb answer "exit" = false ->
  assoc answer (playlists_dir w) = Some rows ->
  completion r = Normal tt
  /\ exists response tail,
       events r
       = [inquirer_prompt ((fst <$> playlists_dir w) ++ ["exit"]) answer;
          console_info ("Answer: " +:+ answer);
          console_log ("Parsing file: " +:+ answer);
          youtube request response;
          create_report title response] ++ tail
       /\ Forall (fun e => search_or_insert e = true /\ is_check e = false)
            tail
       /\ (created_id response = None -> tail = []).
Proof.
  intros r title request Hexit Hrows. subst r.
  rewrite (earlier_addPlaylist_cases answer rows w Hexit Hrows).
  fold title request.
  destruct (fst (serve request (service w))) as [| | |i| |] eqn:E;
    cbn [completion events];
    try (split; [reflexivity|]; eexists _, [];
         rewrite app_nil_r; now repeat split).
  split; [reflexivity|]. eexists _, _. split; [reflexivity|].
  split; [|discriminate].
  destruct (earlier_loop (Some i) rows
              (set_service (snd (serve request (service w))) w))
    as (_ & _ & _ & He).
  apply Forall_app. split; [exact He|].
  destruct (completion (for_of rows _ _)); now repeat constructor.
Qed.

(** X20.  The earlier [addPlaylist] attempts the records of the file in
    their order, and whenever it leaves a record unattempted the last
    thing it does is to report [Error inserting playlist], whatever the
    error was. *)
Theorem earlier_unattempted_record_is_reported
    (answer : string) (rows : list (option TrackData)) (w : World) :
  let r := Earlier.addPlaylist answer w in
  String.eqb answer "exit" = false ->
  assoc answer (playlists_dir w) = Some rows ->
  attempts (events r) `prefix_of` records rows
  /\ (attempts (events r) <> records rows ->
      last (events r) = Some (console_error "Error inserting playlist")).
Proof.
  intros r Hexit Hrows. subst r.
  rewrite (earlier_addPlaylist_cases answer rows w Hexit Hrows).
  destruct (fst (serve (playlists_insert (display_name answer)) (service w)))
    as [| | |i| |] eqn:E;
    cbn [completion events create_report];
    try (split; [apply prefix_nil | reflexivity]).
  destruct (earlier_loop (Some i) rows
              (set_service (snd (serve (playlists_insert (display_name answer))
                                   (service w))) w))
    as (Hc & Hp & Hn & _).
  set (loop := for_of rows _ _) in *.
  rewrite !attempts_app.
  change (attempts [_; _; _; _; _]) with (@nil TrackData).
  rewrite app_nil_l.
  destruct Hc as [Hc|[e Hc]]; rewrite Hc.
  - rewrite app_nil_r. split; [exact Hp|]. intros Hne. now specialize (Hn Hc).
  - change (attempts [console_error "Error inserting playlist"])
      with (@nil TrackData).
    rewrite app_nil_r. split; [exact Hp|]. intros _.
    rewrite !app_assoc. apply last_snoc.
Qed.

End EarlierProgram.

(** ** The scenario, run *)

Import Scenario.
#[local] Existing Instance json.

(** The key of the record of artist [A] and track [X]. *)
Lemma createRedisKey_format_witness :
  createRedisKey (track "A" "X") = "youtube-data-for-A-X"
  /\ String.substring 17 1 (createRedisKey (track "A" "X")) = "A"
  /\ String.substring 19 1 (createRedisKey (track "A" "X")) = "X".
Proof.
  apply (createRedisKey_format (track "A" "X") "A" "X"); reflexivity.
Defined.

(** The fields go into the key as they are: a hyphen in a field is not
    escaped, and two records can share a key. *)
Example createRedisKey_collision :
  createRedisKey (track "a-b" "c") = createRedisKey (track "a" "b-c").
Proof. reflexivity. Qed.

(** An absent field goes into the key as the text [undefined]. *)
Example createRedisKey_absent_field :
  createRedisKey
    {| Track_URI := "spotify:track:1";
       Track_Name := None; Artist_URIs := None; Artist_Names := Some "A";
       Album_URI := None; Album_Name := None; Album_Artist_URIs := None;
       Album_Artist_Names := None; Album_Release_Date := None;
       Album_Image_URL := None; Disc_Number := None; Track_Number := None;
       Track_Duration_ms := None; Track_Preview_URL := None; Explicit := None;
       Popularity := None; ISRC := None; Added_By := None; Added_At := None |}
  = "youtube-data-for-A-undefined".
Proof. reflexivity. Qed.

(** [A X] is resolved, then within less than a day [B Y] and [N O] are
    resolved and the service changes; [A X] is resolved again from the
    cache. *)
Lemma second_resolve_uses_cache_witness :
  let between :=
    [wait 3600; resolve (track "B" "Y") "B Y"; wait 40000;
     resolve (track "N" "O") "N O"; remote tube; wait 42799] in
  let first := getYoutubeTrackData (track "A" "X") "A X" start in
  let second :=
    getYoutubeTrackData (track "A" "X") "A X" (after_steps between (world first)) in
  completion second = Normal [video "ax" "A - X"]
  /\ Forall (fun e => is_request e = false) (events second).
Proof.
  intros between.
  apply (second_resolve_uses_cache (track "A" "X") "A X" start
           [video "ax" "A - X"] between).
  - vm_compute. reflexivity.
  - reflexivity.
Defined.

(** A hit on an entry with five seconds left gives it a day. *)
Lemma getYoutubeTrackData_rearms_ttl_witness :
  let r := getYoutubeTrackData (track "C" "Z") "C Z" cached_empty in
  redis cached_empty !! "youtube-data-for-C-Z"
    = Some {| value := "[]"; ttl := Some 5%N |}
  /\ redis (world r) !! "youtube-data-for-C-Z"
     = Some {| value := "[]"; ttl := Some 86400%N |}
  /\ exists pre,
       events r = pre ++ [redis_set "youtube-data-for-C-Z" "[]";
                          redis_expire "youtube-data-for-C-Z" 86400].
Proof.
  split; [vm_compute; reflexivity|].
  assert (completion (getYoutubeTrackData (track "C" "Z") "C Z" cached_empty)
          = Normal []) as Hc by (vm_compute; reflexivity).
  exact (getYoutubeTrackData_rearms_ttl (track "C" "Z") "C Z" cached_empty [] Hc).
Defined.

(** A record whose video is not in the playlist: the insert is sent, after
    the check. *)
Lemma addTrack_checks_before_insert_witness :
  let evs := events (addTrack (track "A" "X") (Some "PL") start) in
  youtube (playlistItems_insert (Some "PL")
             {| kind := Some "youtube#video"; videoId := Some "ax" |})
    PlaylistItemResource ∈ evs
  /\ (forall before p rid resp after,
        evs = before ++ youtube (playlistItems_insert p rid) resp :: after ->
        youtube (playlistItems_list p (videoId rid) 50)
          (PlaylistItemListResponse []) ∈ before)
  /\ (forall p v n items,
        youtube (playlistItems_list p v n) (PlaylistItemListResponse items) ∈ evs ->
        items <> [] ->
        forall e, e ∈ evs -> is_insert e = false).
Proof.
  split.
  - vm_compute. do 9 apply list_elem_of_further. apply list_elem_of_here.
  - exact (addTrack_checks_before_insert (track "A" "X") (Some "PL") start).
Defined.

(** Of the playlists [one], [One] and [One], the locator returns the
    second. *)
Lemma playlistAlreadyExists_first_match_witness :
  let r := playlistAlreadyExists "One" with_playlist in
  let page := take 20 (playlists (service with_playlist)) in
  completion r = Normal {| exists_ := true; id := Some "PL-1" |}
  /\ events r = [youtube (playlists_list 20 true) (PlaylistListResponse page)]
  /\ length page <= 20
  /\ ((exists before pl after,
         page = before ++ pl :: after
         /\ pl_title pl = "One"
         /\ (forall q, q ∈ before -> pl_title q <> "One")
         /\ completion r = Normal {| exists_ := true; id := pl_id pl |})
      \/
      ((forall q, q ∈ page -> pl_title q <> "One")
       /\ completion r = Normal {| exists_ := false; id := None |})).
Proof.
  split; [reflexivity|].
  apply (playlistAlreadyExists_first_match "One" with_playlist).
  reflexivity.
Defined.

(** A playlist beyond the page is not found. *)
Example playlistAlreadyExists_beyond_page :
  completion (playlistAlreadyExists "One" crowded)
  = Normal {| exists_ := false; id := None |}.
Proof. vm_compute. reflexivity. Qed.

(** The export [one.csv] goes to the existing playlist [One]. *)
Lemma addPlaylist_reuses_playlist_witness :
  Forall (fun e => is_create e = false /\ uses_playlist (Some "PL-1") e)
    (events (addPlaylist_pass "one.csv" with_playlist))
  /\ attempts (events (addPlaylist_pass "one.csv" with_playlist))
     = [track "A" "X"].
Proof.
  split; [|vm_compute; reflexivity].
  apply (addPlaylist_reuses_playlist "one.csv" with_playlist (Some "PL-1")).
  vm_compute. reflexivity.
Defined.

(** A pass over [one.csv], followed by the next prompt. *)
Lemma addPlaylist_one_pass_then_again_witness :
  let pass := addPlaylist_pass "one.csv" start in
  completion pass = Normal tt
  /\ attempts (events pass) `prefix_of` records single
  /\ (completion pass = Normal tt ->
      attempts (events pass) = records single
      /\ addPlaylist ["one.csv"; "exit"] start
         = prepend (events pass) (addPlaylist ["exit"] (world pass)))
  /\ completion (addPlaylist ["one.csv"; "exit"] start) <> Normal tt.
Proof.
  split; [vm_compute; reflexivity|].
  apply (addPlaylist_one_pass_then_again "one.csv" ["exit"] start single).
  reflexivity.
Defined.

(** C3 as stated fails: the pass over [one.csv] completes, the operator
    picks the same export at the next prompt, and its record is attempted a
    second time; three prompts were answered, the last one with [exit],
    and without that answer the program waits at the prompt. *)
Lemma addPlaylist_imports_again :
  let run := addPlaylist ["one.csv"; "one.csv"; "exit"] start in
  completion (addPlaylist_pass "one.csv" start) = Normal tt
  /\ attempts (events run) = records single ++ records single
  /\ attempts (events run) <> records single
  /\ prompts (events run) = 3
  /\ completion run = ProcessExit
  /\ completion (addPlaylist ["one.csv"] start) = AwaitingAnswer.
Proof. vm_compute. repeat split; (reflexivity || discriminate). Qed.

(** The empty array from the cache, from the search, and a record with a
    candidate. *)
Lemma addTrack_reads_top_candidate_unguarded_witness :
  completion (addTrack (track "C" "Z") (Some "PL") cached_empty)
    = Throw (reading "id")
  /\ completion (addTrack (track "C" "Z") (Some "PL") start)
    = Throw (reading "id")
  /\ completion (addTrack (track "A" "X") (Some "PL") start) = Normal tt.
Proof.
  pose proof (addTrack_reads_top_candidate_unguarded
                (track "C" "Z") (Some "PL") cached_empty) as (Hhit & _ & Hget).
  pose proof (addTrack_reads_top_candidate_unguarded
                (track "C" "Z") (Some "PL") start) as (_ & Hmiss & Hget').
  split; [|split].
  - apply (Hget []); [|reflexivity].
    apply (Hhit {| value := "[]"; ttl := Some 5%N |}); reflexivity.
  - apply (Hget' []); [|reflexivity]. apply Hmiss; reflexivity.
  - vm_compute. reflexivity.
Defined.

(** C6 at its failing input: the search answers with no items; the
    resolver returns the empty sequence and stores it for a day, and the
    record ends in a [TypeError] that does not carry the query. *)
Lemma empty_result_is_not_refused :
  let r := getYoutubeTrackData (track "C" "Z") "C Z" start in
  catalogue (service start) "C Z" = ArrayOf []
  /\ completion r = Normal []
  /\ redis (world r) !! "youtube-data-for-C-Z"
     = Some {| value := "[]"; ttl := Some 86400%N |}
  /\ completion (addTrack (track "C" "Z") (Some "PL") start)
     = Throw (TypeError "Cannot read properties of undefined (reading 'id')").
Proof. vm_compute. repeat split; reflexivity. Qed.

(** C1 at its failing input: the second of three records has no search
    result; the error leaves [addPlaylist] and the third record is never
    attempted. *)
Lemma unresolved_record_ends_the_pass :
  let pass := addPlaylist_pass "gap.csv" start in
  records with_gap = [track "A" "X"; track "N" "O"; track "B" "Y"]
  /\ completion (getYoutubeTrackData (track "N" "O") "N O" start)
     = Throw (Error "No items were returned for query: N O")
  /\ completion pass = Throw (Error "No items were returned for query: N O")
  /\ attempts (events pass) = [track "A" "X"; track "N" "O"]
  /\ completion (addPlaylist ["gap.csv"; "exit"] start)
     = Throw (Error "No items were returned for query: N O").
Proof. vm_compute. repeat split; reflexivity. Qed.

(** The example of the specification: the playlist is created once, [A X]
    is searched once and found in the cache the second time, its video is
    not inserted twice, and the playlist ends with two items. *)
Example example_of_the_specification :
  let pass := addPlaylist_pass "my_list.csv" start in
  completion pass = Normal tt
  /\ filter (fun e => is_create e = true) (events pass)
     = [youtube (playlists_insert "My List") (PlaylistResource "PL-My List")]
  /\ omap (fun e => match e with
                    | youtube (search_list q _) _ => Some q
                    | _ => None
                    end) (events pass)
     = ["A X"; "B Y"]
  /\ playlistItems (service (world pass))
     = [ {| item_playlistId := "PL-My List"; item_videoId := "ax" |};
         {| item_playlistId := "PL-My List"; item_videoId := "by" |} ].
Proof. vm_compute. repeat split; reflexivity. Qed.

(** ** The further cases, run *)

Import Cases.




(** No request on the spoiled entry, one search without an entry. *)
Lemma getYoutubeTrackData_requests_witness :
  requests (events (getYoutubeTrackData (track "A" "X") "A X" spoiled)) = []
  /\ exists response,
       requests (events (getYoutubeTrackData (track "A" "X") "A X" start))
       = [youtube (search_list "A X" 1) response].
Proof.
  destruct (getYoutubeTrackData_requests (track "A" "X") "A X" spoiled)
    as (_ & Hhit & _).
  destruct (getYoutubeTrackData_requests (track "A" "X") "A X" start)
    as (_ & _ & Hmiss).
  split; [apply Hhit | apply Hmiss]; reflexivity.
Defined.

(** The text [null] under the key of [B Y]. *)
Lemma unusable_entry_is_kept_witness :
  let r := getYoutubeTrackData (track "B" "Y") "B Y" spoiled in
  completion r = Throw (Error "No items were returned for query: B Y")
  /\ requests (events r) = []
  /\ world r = spoiled.
Proof.
  intros r.
  assert (redis spoiled !! createRedisKey (track "B" "Y")
          = Some {| value := "null"; ttl := Some 60%N |}) as He
    by (vm_compute; reflexivity).
  assert (JSON_parse "null" = Some NonArray) as Hp by reflexivity.
  destruct (unusable_entry_is_kept (track "B" "Y") "B Y" spoiled
              {| value := "null"; ttl := Some 60%N |} He eq_refl
              (or_intror Hp))
    as (_ & Herror & Hnone & Hworld).
  split; [apply Herror; reflexivity|]. now split.
Defined.

(** The records [a-b]/[c] and [a]/[b-c] share a key: the second gets the
    video of the first, for which its own query finds nothing. *)
Lemma colliding_records_share_entry_witness :
  let first := getYoutubeTrackData (track "a-b" "c") "a-b c" hyphens in
  let second :=
    getYoutubeTrackData (track "a" "b-c") "a b-c"
      (after_steps [wait 3600] (world first)) in
  catalogue (service hyphens) "a b-c" = NonArray
  /\ completion second = Normal [video "abc" "a-b - c"]
  /\ requests (events second) = [].
Proof.
  split; [reflexivity|].
  assert (completion (getYoutubeTrackData (track "a-b" "c") "a-b c" hyphens)
          = Normal [video "abc" "a-b - c"]) as Hfirst
    by (vm_compute; reflexivity).
  exact (colliding_records_share_entry (track "a-b" "c") (track "a" "b-c")
           "a-b c" "a b-c" hyphens [video "abc" "a-b - c"] [wait 3600]
           eq_refl Hfirst eq_refl).
Defined.


(** [C Z] has no result; the record fails again 80000 seconds later, from
    the cache. *)
Lemma empty_entry_blocks_record_witness :
  let first := getYoutubeTrackData (track "C" "Z") "C Z" start in
  let again :=
    addTrack (track "C" "Z") (Some "PL")
      (after_steps [wait 80000] (world first)) in
  completion again = Throw (reading "id")
  /\ requests (events again) = []
  /\ redis (world again) !! createRedisKey (track "C" "Z")
     = Some {| value := JSON_stringify []; ttl := Some 86400%N |}.
Proof.
  assert (completion (getYoutubeTrackData (track "C" "Z") "C Z" start)
          = Normal []) as Hfirst by (vm_compute; reflexivity).
  exact (empty_entry_blocks_record (track "C" "Z") (Some "PL") start
           [wait 80000] Hfirst eq_refl).
Defined.

(** The service rejects the insert of [A X]. *)
Lemma failed_insert_is_logged_witness :
  let r := addTrack (track "A" "X") (Some "PL") (on_service (failing insertion)) in
  let request :=
    playlistItems_insert (Some "PL")
      {| kind := Some "youtube#video"; videoId := Some "ax" |} in
  completion r = Normal tt
  /\ exists before,
       events r = before ++ [youtube request Rejected;
                             console_error "Error adding track to playlist"].
Proof.
  intros r request.
  assert (youtube request Rejected ∈ events r) as Hin.
  { vm_compute. do 9 apply list_elem_of_further. apply list_elem_of_here. }
  exact (failed_insert_is_logged (track "A" "X") (Some "PL")
           (on_service (failing insertion)) (Some "PL")
           {| kind := Some "youtube#video"; videoId := Some "ax" |}
           Rejected Hin).
Defined.

(** With the entry of [C Z] in the cache the call sends no search. *)
Lemma addTrack_footprint_witness :
  length (requests (events (addTrack (track "C" "Z") (Some "PL") cached_empty)))
  <= 2.
Proof.
  destruct (addTrack_footprint (track "C" "Z") (Some "PL") cached_empty)
    as (_ & _ & Hhit).
  apply Hhit. reflexivity.
Defined.

(** The creation of [One] is rejected: the record of [one.csv] is attempted
    without a playlist. *)
Lemma pass_creates_when_absent_witness :
  let w := on_service (failing creation) in
  addPlaylist_pass "one.csv" w =
  prepend
    [inquirer_prompt
       ["one.csv"; "gap.csv"; "none.csv"; "my_list.csv"; "exit"] "one.csv";
     console_info "Answer: one.csv";
     console_log "Parsing file: one.csv";
     youtube (playlists_list 20 true) (PlaylistListResponse []);
     youtube (playlists_insert "One") Rejected;
     console_error "Error inserting playlist"]
    (for_of [Some (track "A" "X")] (loop_body None) w).
Proof.
  intros w.
  assert (forall q, q ∈ take 20 (playlists (service w)) ->
                    pl_title q <> display_name "one.csv") as Habsent.
  { intros q Hq. cbn in Hq. now apply elem_of_nil in Hq. }
  exact (pass_creates_when_absent "one.csv" [Some (track "A" "X")] w
           eq_refl eq_refl eq_refl Habsent).
Defined.

(** The listing is rejected: the second answer is never asked for. *)
Lemma rejected_listing_ends_the_run_witness :
  let w := on_service (failing listing) in
  addPlaylist ["one.csv"; "gap.csv"] w =
  {| completion := Throw (GaxiosError (playlists_list 20 true));
     world := w;
     events :=
       [inquirer_prompt
          ["one.csv"; "gap.csv"; "none.csv"; "my_list.csv"; "exit"] "one.csv";
        console_info "Answer: one.csv";
        console_log "Parsing file: one.csv";
        youtube (playlists_list 20 true) Rejected] |}.
Proof.
  exact (rejected_listing_ends_the_run "one.csv" ["gap.csv"]
           [Some (track "A" "X")] (on_service (failing listing))
           eq_refl eq_refl eq_refl).
Defined.

(** The operator's choice is gone from the directory. *)
Lemma unreadable_file_ends_the_run_witness :
  addPlaylist ["gone.csv"; "one.csv"] start =
  {| completion := Throw (ENOENT "gone.csv");
     world := start;
     events :=
       [inquirer_prompt
          ["one.csv"; "gap.csv"; "none.csv"; "my_list.csv"; "exit"] "gone.csv";
        console_info "Answer: gone.csv";
        console_log "Parsing file: gone.csv";
        console_error "Error parsing csv file"] |}.
Proof.
  exact (unreadable_file_ends_the_run "gone.csv" ["one.csv"] start
           eq_refl eq_refl).
Defined.

(** The playlist [PL] holds the video of [A X]: the earlier [addTrack]
    inserts it again, the later one does not. *)
Lemma earlier_addTrack_inserts_unchecked_witness :
  let r := Earlier.addTrack (Some (track "A" "X")) (Some "PL") holding in
  let request :=
    playlistItems_insert (Some "PL")
      {| kind := Some "youtube#video"; videoId := Some "ax" |} in
  Forall (fun e => is_insert e = false)
    (events (addTrack (track "A" "X") (Some "PL") holding))
  /\ completion r = Normal tt
  /\ Forall (fun e => is_check e = false) (events r)
  /\ exists before response,
       events r = before ++ [youtube request response;
                             insert_report (Some "X") response]
       /\ Forall (fun e => is_insert e = false) before.
Proof.
  intros r request. split; [vm_compute; repeat constructor|].
  assert (completion (getYoutubeTrackData (track "A" "X") "A X" holding)
          = Normal [video "ax" "A - X"]) as Hfirst
    by (vm_compute; reflexivity).
  exact (earlier_addTrack_inserts_unchecked (track "A" "X") (Some "PL") holding
           (video "ax" "A - X") [] Hfirst).
Defined.

(** [A X] goes into the playlist [PL] in both versions. *)
Lemma guard_is_the_difference_witness :
  let later := addTrack (track "A" "X") (Some "PL") start in
  let earlier := Earlier.addTrack (Some (track "A" "X")) (Some "PL") start in
  completion earlier = completion later
  /\ world earlier = world later
  /\ exists before after,
       events later
       = before
         ++ [checking;
             youtube (playlistItems_list (Some "PL") (Some "ax") 50)
               (PlaylistItemListResponse [])]
         ++ after
       /\ events earlier = before ++ after.
Proof.
  intros later earlier.
  assert (youtube
            (playlistItems_insert (Some "PL")
               {| kind := Some "youtube#video"; videoId := Some "ax" |})
            PlaylistItemResource ∈ events later) as Hin.
  { vm_compute. do 9 apply list_elem_of_further. apply list_elem_of_here. }
  exact (guard_is_the_difference (track "A" "X") (Some "PL") start (Some "PL")
           {| kind := Some "youtube#video"; videoId := Some "ax" |}
           PlaylistItemResource Hin).
Defined.

(** The earlier program on [one.csv], the creation rejected. *)
Lemma earlier_addPlaylist_always_creates_witness :
  let w := on_service (failing creation) in
  let r := Earlier.addPlaylist "one.csv" w in
  events r
  = [inquirer_prompt
       ["one.csv"; "gap.csv"; "none.csv"; "my_list.csv"; "exit"] "one.csv";
     console_info "Answer: one.csv";
     console_log "Parsing file: one.csv";
     youtube (playlists_insert "One") Rejected;
     console_error "Error inserting playlist"]
  /\ completion r = Normal tt
  /\ exists response tail,
       events r
       = [inquirer_prompt ((fst <$> playlists_dir w) ++ ["exit"]) "one.csv";
          console_info ("Answer: " +:+ "one.csv");
          console_log ("Parsing file: " +:+ "one.csv");
          youtube (playlists_insert (display_name "one.csv")) response;
          create_report (display_name "one.csv") response] ++ tail
       /\ Forall (fun e => search_or_insert e = true /\ is_check e = false)
            tail
       /\ (created_id response = None -> tail = []).
Proof.
  intros w r. split; [vm_compute; reflexivity|].
  exact (earlier_addPlaylist_always_creates "one.csv" [Some (track "A" "X")] w
           eq_refl eq_refl).
Defined.

(** The earlier program on [gap.csv]: the second record has no result, the
    third is not attempted, and the report speaks of the playlist. *)
Lemma earlier_unattempted_record_is_reported_witness :
  let r := Earlier.addPlaylist "gap.csv" start in
  attempts (events r) = [track "A" "X"; track "N" "O"]
  /\ last (events r) = Some (console_error "Error inserting playlist").
Proof.
  intros r. split; [vm_compute; reflexivity|].
  destruct (earlier_unattempted_record_is_reported "gap.csv"
              [Some (track "A" "X"); Some (track "N" "O"); Some (track "B" "Y")]
              start eq_refl eq_refl) as [_ Hlast].
  apply Hlast. vm_compute. discriminate.
Defined.
